(** * Shortest paths over a road network: the [dijkstra] function of main.py

    The development embeds the function [dijkstra(G, origem, destino)] of
    [src/main.py] (lines 35 to 113) and the part of the NetworkX graph
    interface it consumes ([G.nodes()], [G.neighbors(n)], [G[u][v]]), and
    states the properties of the specification over that embedding.

    Modelling choices.
    - Node identifiers are integers (OSM node ids), [Z].
    - Edge lengths are integers, [Z], added exactly, as Python adds
      [int]s; [float('infinity')] is the separate label [Inf].  The sums
      of [float] lengths round and are not modelled: a statement that
      names an exact sum or an exact minimum of sums is a statement about
      integer lengths, and says so; the other statements do not depend on
      how a sum is rounded.
    - A NetworkX adjacency dictionary keeps insertion order: the graph is
      an association list, in the order in which nodes and neighbours are
      listed.
    - The dictionaries and the set the function allocates ([distancias],
      [predecessores], [visitados]) are only read and updated by key:
      they are [gmap]s and a [gset].
    - [heapq] is used through its contract: [heappop] returns the least
      item of the queue, here the least pair (distance, node) in
      lexicographic order.
    - The graph is an object the function receives by reference: every
      access to it goes through a state monad whose state is the graph,
      so that "the call leaves the graph as it was" is a statement about
      the code and not about the notation.
    - Python's [while] loops take fuel; running out of it is the outcome
      [OutOfFuel], distinct from every result and every exception.  A
      loop of the program that never ends has this outcome for every
      fuel.  For the walk back along the predecessors, which appends to a
      list at every round, Python ends such a run with [MemoryError] once
      the list no longer fits; that error is not among the modelled
      exceptions: [OutOfFuel] stands for the run that does not end, not
      for a run without an error. *)

From stdpp Require Import gmap list.

#[local] Set Warnings "-clear-no-such-hyp".

Local Open Scope Z_scope.

(** ** Values *)

(** A distance label: a finite number or [float('infinity')]. *)
Inductive num : Type :=
| Fin (z : Z)
| Inf.

#[global] Instance num_eq_dec : EqDecision num.
Proof. solve_decision. Defined.

(** [distancia < distancias[vizinho]], the left side always finite. *)
Definition lt_num (a : Z) (b : num) : bool :=
  match b with
  | Fin z => bool_decide (a < z)
  | Inf => true
  end.

(** The exceptions the function can meet. *)
Inductive exn : Type :=
| KeyError
| NetworkXError.

#[global] Instance exn_eq_dec : EqDecision exn.
Proof. solve_decision. Defined.

Inductive outcome (A : Type) : Type :=
| Ok (a : A)
| Raise (e : exn)
| OutOfFuel.

Arguments Ok {A} a.
Arguments Raise {A} e.
Arguments OutOfFuel {A}.

(** ** The graph store *)

(** What [G[u][v]] holds.  In a [MultiGraph] it is a dictionary from edge
    keys to attribute dictionaries, one entry per parallel edge; in a
    [Graph] it is the attribute dictionary of the only edge.  Of the
    attributes only ['length'] is read: [None] when the edge has none. *)
Inductive edge_data : Type :=
| MultiEdge (keys : list (Z * option Z))
| SimpleEdge (len : option Z).

(** The adjacency: node ↦ (neighbour ↦ edge data), in insertion order. *)
Definition Graph : Type := list (Z * list (Z * edge_data)).

(** First binding of a key in an association list (a dictionary lookup). *)
Fixpoint assoc {A : Type} (k : Z) (l : list (Z * A)) : option A :=
  match l with
  | [] => None
  | (k', a) :: l' => if bool_decide (k' = k) then Some a else assoc k l'
  end.

(** ** The monad: the graph as state, exceptions, fuel *)

Definition M (A : Type) : Type := Graph → outcome A * Graph.

Definition ret {A : Type} (a : A) : M A := λ G, (Ok a, G).

Definition raise {A : Type} (e : exn) : M A := λ G, (Raise e, G).

Definition timeout {A : Type} : M A := λ G, (OutOfFuel, G).

Definition bind {A B : Type} (m : M A) (f : A → M B) : M B :=
  λ G, match m G with
       | (Ok a, G') => f a G'
       | (Raise e, G') => (Raise e, G')
       | (OutOfFuel, G') => (OutOfFuel, G')
       end.

(** [try: m  except KeyError: h] *)
Definition try_except_KeyError {A : Type} (m h : M A) : M A :=
  λ G, match m G with
       | (Raise KeyError, G') => h G'
       | r => r
       end.

Declare Scope dijkstra_scope.
Delimit Scope dijkstra_scope with dj.
Notation "'let*' x ':=' m 'in' k" := (bind m (λ x, k))
  (at level 10, x name, m at level 100, k at level 200) : dijkstra_scope.
Local Open Scope dijkstra_scope.

(** [d[k]] on a dictionary of the function's own. *)
Definition dict_get {A : Type} (d : gmap Z A) (k : Z) : M A :=
  match d !! k with
  | Some a => ret a
  | None => raise KeyError
  end.

(** [{node: v for node in nodes}] *)
Definition dict_from {A : Type} (nodes : list Z) (v : A) : gmap Z A :=
  list_to_map ((λ n, (n, v)) <$> nodes).

(** [G.nodes()] *)
Definition G_nodes : M (list Z) := λ G, (Ok (G.*1), G).

(** [G.neighbors(n)]: NetworkX raises [NetworkXError] for an absent node. *)
Definition G_neighbors (n : Z) : M (list Z) :=
  λ G, match assoc n G with
       | Some a => (Ok (a.*1), G)
       | None => (Raise NetworkXError, G)
       end.

(** [G[u][v]]: a [KeyError] when [u] is absent or [v] is no neighbour. *)
Definition G_getitem (u v : Z) : M edge_data :=
  λ G, match assoc u G with
       | Some a => match assoc v a with
                   | Some d => (Ok d, G)
                   | None => (Raise KeyError, G)
                   end
       | None => (Raise KeyError, G)
       end.

(** [d[0]['length']] on the edge data [d]: in a [MultiGraph] the length of
    the edge with key 0; the attribute dictionary of a simple edge has no
    key 0. *)
Definition key0_length (d : edge_data) : option Z :=
  match d with
  | MultiEdge keys =>
      match assoc 0 keys with
      | Some (Some w) => Some w
      | _ => None
      end
  | SimpleEdge _ => None
  end.

(** [d['length']]: the length of a simple edge; the edge keys of a
    multi-edge are integers, ['length'] is none of them. *)
Definition direct_length (d : edge_data) : option Z :=
  match d with
  | MultiEdge _ => None
  | SimpleEdge len => len
  end.

(** [G[no_atual][vizinho][0]['length']] *)
Definition length_key0 (u v : Z) : M Z :=
  let* d := G_getitem u v in
  match key0_length d with
  | Some w => ret w
  | None => raise KeyError
  end.

(** [G[no_atual][vizinho]['length']] *)
Definition length_direct (u v : Z) : M Z :=
  let* d := G_getitem u v in
  match direct_length d with
  | Some w => ret w
  | None => raise KeyError
  end.

(** The two nested [try] blocks: [Some peso], or [None] for [continue]. *)
Definition peso_of (u v : Z) : M (option Z) :=
  try_except_KeyError
    (let* w := length_key0 u v in ret (Some w))
    (try_except_KeyError
       (let* w := length_direct u v in ret (Some w))
       (ret None)).

(** ** The priority queue *)

(** Order of the tuples (distance, node). *)
Definition lex_le (a b : Z * Z) : bool :=
  bool_decide (a.1 < b.1) || (bool_decide (a.1 = b.1) && bool_decide (a.2 ≤ b.2)).

Definition heappush (q : list (Z * Z)) (x : Z * Z) : list (Z * Z) := x :: q.

(** The least item and the queue without it; [None] on an empty queue. *)
Fixpoint heappop (q : list (Z * Z)) : option ((Z * Z) * list (Z * Z)) :=
  match q with
  | [] => None
  | x :: q' =>
      match heappop q' with
      | None => Some (x, [])
      | Some (m, r) => if lex_le x m then Some (x, q') else Some (m, x :: r)
      end
  end.

(** ** The function's own state *)

Record locals : Type := Locals {
  distancias : gmap Z num;
  predecessores : gmap Z (option Z);
  visitados : gset Z;
  pq : list (Z * Z)
}.

(** The body of [for vizinho in G.neighbors(no_atual)] for one neighbour. *)
Definition relax (no_atual dist_atual vizinho : Z) (st : locals) : M locals :=
  let* p := peso_of no_atual vizinho in
  match p with
  | None => ret st
  | Some peso =>
      let distancia := dist_atual + peso in
      let* dv := dict_get (distancias st) vizinho in
      if lt_num distancia dv then
        ret (Locals (<[vizinho := Fin distancia]> (distancias st))
                    (<[vizinho := Some no_atual]> (predecessores st))
                    (visitados st)
                    (heappush (pq st) (distancia, vizinho)))
      else ret st
  end.

Fixpoint for_vizinho (no_atual dist_atual : Z) (nbrs : list Z) (st : locals)
  : M locals :=
  match nbrs with
  | [] => ret st
  | vizinho :: rest =>
      let* st' := relax no_atual dist_atual vizinho st in
      for_vizinho no_atual dist_atual rest st'
  end.

(** [while pq: ...] *)
Fixpoint while_pq (fuel : nat) (destino : Z) (st : locals) : M locals :=
  match fuel with
  | O => timeout
  | S fuel' =>
      match heappop (pq st) with
      | None => ret st
      | Some ((dist_atual, no_atual), q) =>
          let st1 := Locals (distancias st) (predecessores st) (visitados st) q in
          if bool_decide (no_atual = destino) then ret st1
          else if bool_decide (no_atual ∈ visitados st) then
            while_pq fuel' destino st1
          else
            let st2 := Locals (distancias st) (predecessores st)
                              ({[no_atual]} ∪ visitados st) q in
            let* nbrs := G_neighbors no_atual in
            let* st3 := for_vizinho no_atual dist_atual nbrs st2 in
            while_pq fuel' destino st3
      end
  end.

(** [while no_atual is not None: caminho.append(no_atual); ...] *)
Fixpoint walk_back (fuel : nat) (pred : gmap Z (option Z))
    (no_atual : option Z) (caminho : list Z) : M (list Z) :=
  match no_atual with
  | None => ret caminho
  | Some n =>
      match fuel with
      | O => timeout
      | S fuel' =>
          let* p := dict_get pred n in
          walk_back fuel' pred p (caminho ++ [n])
      end
  end.

Definition dijkstra (fuel : nat) (origem destino : Z) : M (list Z * num) :=
  let* nodes := G_nodes in
  let distancias0 := <[origem := Fin 0]> (dict_from nodes Inf) in
  let pq0 := [(0, origem)] in
  let* nodes' := G_nodes in
  let predecessores0 := dict_from nodes' None in
  let* st := while_pq fuel destino (Locals distancias0 predecessores0 ∅ pq0) in
  let* p := dict_get (predecessores st) destino in
  if bool_decide (p = None) && bool_decide (destino ≠ origem) then
    ret ([], Inf)
  else
    let* caminho := walk_back fuel (predecessores st) (Some destino) [] in
    let* custo := dict_get (distancias st) destino in
    ret (reverse caminho, custo).

(** ** The page around the call (lines 115 to 200) *)

(** [try: m  except Exception as e: h e] *)
Definition try_except {A : Type} (m : M A) (h : exn → M A) : M A :=
  λ G, match m G with
       | (Raise e, G') => h e G'
       | r => r
       end.

(** What the page writes under the two selection boxes: [st.success]
    with the two places and the cost, [st.error] for no path, [st.error]
    with the exception caught. *)
Inductive message (place : Type) : Type :=
| Success (origem destino : place) (custo : num)
| NoPath
| Failed (e : exn).

Arguments Success {place} origem destino custo.
Arguments NoPath {place}.
Arguments Failed {place} e.

(** The layers handed to the map: the streets, the path when there is
    one to draw, the places. *)
Inductive layer : Type :=
| LayerRuas
| LayerCaminho (rows : list (Z * Z))
| LayerPontos.

(** [G_real.nodes[a]]: a [KeyError] for a node the graph does not have.
    The coordinates read there are attributes OSMnx puts on every node;
    the model holds the node. *)
Definition G_node (a : Z) : M Z :=
  λ G, if bool_decide (a ∈ G.*1) then (Ok a, G) else (Raise KeyError, G).

(** The list comprehension of [path_df]: for each pair the coordinates
    of [a], twice, then those of [b], twice. *)
Fixpoint rows (pairs : list (Z * Z)) : M (list (Z * Z)) :=
  match pairs with
  | [] => ret []
  | (a, b) :: pairs' =>
      let* from_lat := G_node a in
      let* from_lon := G_node a in
      let* to_lat := G_node b in
      let* to_lon := G_node b in
      let* rest := rows pairs' in
      ret ((from_lat, to_lat) :: rest)
  end.

(** [path_df]: empty unless [caminho and len(caminho) > 1], else a row
    for each pair of [zip(caminho, caminho[1:])]. *)
Definition path_df (caminho : list Z) : M (list (Z * Z)) :=
  if bool_decide (caminho ≠ []) && bool_decide (1 < length caminho)%nat then
    rows (zip caminho (tail caminho))
  else ret [].

(** [layers]: the path layer is appended when [path_df] is not empty. *)
Definition layers (df : list (Z * Z)) : list layer :=
  [LayerRuas] ++ (if bool_decide (df ≠ []) then [LayerCaminho df] else [])
              ++ [LayerPontos].

Section Page.
Context {place : Type} `{EqDecision place}.

(** [ox.distance.nearest_nodes(G_real, locations[p][1], locations[p][0])],
    the resolution of a place to a node, which the page gets from OSMnx. *)
Variable nearest_nodes : place → M Z.

(** Step 4 of the page: [caminho] and [custo_total] keep [[]] and [0]
    unless [dijkstra] returns. *)
Definition calcular (fuel : nat) (origem destino : place)
  : M (list Z * num * option (message place)) :=
  if bool_decide (origem ≠ destino) then
    try_except
      (let* no_origem := nearest_nodes origem in
       let* no_destino := nearest_nodes destino in
       let* r := dijkstra fuel no_origem no_destino in
       if bool_decide (r.1 ≠ []) then
         ret (r.1, r.2, Some (Success origem destino r.2))
       else ret (r.1, r.2, Some NoPath))
      (λ e, ret ([], Fin 0, Some (Failed e)))
  else ret ([], Fin 0, None).

(** Steps 4 to 6: the message shown and the layers drawn.  The tables of
    step 5, of all the places and of all the streets, do not depend on
    the selection and are left out. *)
Definition pagina (fuel : nat) (origem destino : place)
  : M (option (message place) * list layer) :=
  let* r := calcular fuel origem destino in
  let* df := path_df r.1.1 in
  ret (r.2, layers df).
End Page.

(** A graph without parallel edges: every edge a simple edge, or a
    multi-edge with the one key 0. *)
Definition data_single (d : edge_data) : bool :=
  match d with
  | MultiEdge [(k, _)] => bool_decide (k = 0)
  | MultiEdge _ => false
  | SimpleEdge _ => true
  end.

Definition no_parallelb (G : Graph) : bool :=
  forallb (λ ua, forallb (λ vd, data_single vd.2) ua.2) G.

Definition no_parallel (G : Graph) : Prop := no_parallelb G = true.

(** ** What the code reads of an edge, and what the graph holds *)

(** The length the two [try] blocks find in [G[u][v]]: the length of the
    edge with key 0 of a multi-edge, the length of a simple edge. *)
Definition data_weight (d : edge_data) : option Z :=
  match key0_length d with
  | Some w => Some w
  | None => direct_length d
  end.

(** The lengths of all the parallel edges held in [G[u][v]]. *)
Definition data_lengths (d : edge_data) : list Z :=
  match d with
  | MultiEdge keys => omap snd keys
  | SimpleEdge len => option_list len
  end.

Definition edge (G : Graph) (u v : Z) : option edge_data :=
  match assoc u G with
  | Some a => assoc v a
  | None => None
  end.

Definition weight (G : Graph) (u v : Z) : option Z :=
  match edge G u v with
  | Some d => data_weight d
  | None => None
  end.

Definition lengths (G : Graph) (u v : Z) : list Z :=
  match edge G u v with
  | Some d => data_lengths d
  | None => []
  end.

Definition min_list (l : list Z) : option Z :=
  match l with
  | [] => None
  | x :: l' => Some (foldr Z.min x l')
  end.

(** The least length among the parallel edges between [u] and [v]. *)
Definition min_parallel (G : Graph) (u v : Z) : option Z :=
  min_list (lengths G u v).

Definition neighbors (G : Graph) (u : Z) : list Z :=
  match assoc u G with
  | Some a => a.*1
  | None => []
  end.

#[global] Instance edge_data_eq_dec : EqDecision edge_data.
Proof. solve_decision. Defined.

(** The invariant NetworkX keeps for an undirected graph: [G[u][v]] and
    [G[v][u]] are the same edge data, so every neighbour is a node. *)
Definition wf_graphb (G : Graph) : bool :=
  forallb (λ ua, forallb (λ vd, bool_decide (edge G vd.1 ua.1 = Some vd.2)) ua.2) G.

Definition wf_graph (G : Graph) : Prop := wf_graphb G = true.

(** Every length in the graph is non-negative. *)
Definition nonnegb (G : Graph) : bool :=
  forallb (λ ua, forallb (λ vd, forallb (λ w, bool_decide (0 ≤ w))
                                         (data_lengths vd.2)) ua.2) G.

Definition nonneg (G : Graph) : Prop := nonnegb G = true.

(** The edge the code reads is a shortest one of its parallel edges. *)
Definition data_first_minimal (d : edge_data) : bool :=
  match data_weight d with
  | Some w0 => forallb (λ w, bool_decide (w0 ≤ w)) (data_lengths d)
  | None => bool_decide (data_lengths d = [])
  end.

Definition first_minimalb (G : Graph) : bool :=
  forallb (λ ua, forallb (λ vd, data_first_minimal vd.2) ua.2) G.

Definition first_minimal (G : Graph) : Prop := first_minimalb G = true.

(** A route from [u]: the node reached and the sum of the lengths of the
    edges taken, one of the parallel edges at each step. *)
Inductive route (G : Graph) (u : Z) : Z → Z → Prop :=
| route_here : u ∈ G.*1 → route G u u 0
| route_step v x c w :
    route G u v c → w ∈ lengths G v x → route G u x (c + w).

(** A route over the edges as the code reads them. *)
Inductive route0 (G : Graph) (u : Z) : Z → Z → Prop :=
| route0_here : u ∈ G.*1 → route0 G u u 0
| route0_step v x c w :
    route0 G u v c → weight G v x = Some w → route0 G u x (c + w).

(** Reachability along the adjacency alone, lengths or not. *)
Inductive connected (G : Graph) (u : Z) : Z → Prop :=
| connected_here : u ∈ G.*1 → connected G u u
| connected_step v x : connected G u v → x ∈ neighbors G v → connected G u x.

Definition min_cost (G : Graph) (u v c : Z) : Prop :=
  route G u v c ∧ ∀ c', route G u v c' → c ≤ c'.

(** A returned path read against the graph: consecutive nodes adjacent,
    and the sums of the least parallel lengths, resp. of the lengths the
    code reads, along it. *)
Fixpoint is_walk (G : Graph) (p : list Z) : Prop :=
  match p with
  | u :: (v :: _) as p' => v ∈ neighbors G u ∧ is_walk G p'
  | _ => True
  end.

Fixpoint sum_along (f : Z → Z → option Z) (p : list Z) : option Z :=
  match p with
  | u :: (v :: _) as p' =>
      match f u v, sum_along f p' with
      | Some w, Some c => Some (w + c)
      | _, _ => None
      end
  | _ => Some 0
  end.

Definition cost_of (r : outcome (list Z * num)) : option num :=
  match r with
  | Ok (_, c) => Some c
  | _ => None
  end.

(** Fuel that always suffices for the search loop: one round per queue
    item, and a node puts at most one item per neighbour in the queue. *)
Definition total_degree (G : Graph) : nat :=
  foldr (λ ua n, (length ua.2 + n)%nat) 0%nat G.

(** ** States of the search *)

(** The state the search starts from. *)
Definition start (G : Graph) (origem : Z) : locals :=
  Locals (<[origem := Fin 0]> (dict_from (G.*1) Inf)) (dict_from (G.*1) None)
         ∅ [(0, origem)].

(** The state after a successful relaxation of [vizinho]. *)
Definition relaxed (no_atual distancia vizinho : Z) (st : locals) : locals :=
  Locals (<[vizinho := Fin distancia]> (distancias st))
         (<[vizinho := Some no_atual]> (predecessores st))
         (visitados st)
         (heappush (pq st) (distancia, vizinho)).

(** Queue items a node not yet visited can still cause. *)
Definition pending (G : Graph) (vis : gset Z) : nat :=
  foldr (λ ua n, if bool_decide (ua.1 ∈ vis) then n else (length ua.2 + n)%nat) 0%nat G.

(** The path the predecessors describe from a node back to the origin,
    and the sum of the lengths read along it. *)
Inductive trail (G : Graph) (pred : gmap Z (option Z)) (origem : Z)
  : Z → list Z → Z → Prop :=
| trail_root : pred !! origem = Some None → trail G pred origem origem [origem] 0
| trail_next v u l c w :
    pred !! v = Some (Some u) → weight G u v = Some w →
    trail G pred origem u l c → trail G pred origem v (v :: l) (c + w).

(** ** Errors and lengths *)

(** The exception an unknown origin or destination ends in: the origin is
    the first node taken from the queue, and [G.neighbors] refuses it
    with [NetworkXError]; when the loop is left before that, or the
    origin is known, it is the lookup [predecessores[destino]] that
    fails, with [KeyError]. *)
Definition unknown_node_error (G : Graph) (origem destino : Z) : exn :=
  if bool_decide (origem ∈ G.*1 ∨ origem = destino) then KeyError
  else NetworkXError.


(** ** One graph, listed in two ways *)

(** Every node and every edge datum listed in [G] is found, the same, in
    [G']. *)
Definition sublisted (G G' : Graph) : bool :=
  forallb (λ ua, match assoc ua.1 G' with
                 | Some a' =>
                     forallb (λ vd, bool_decide (assoc vd.1 a' = Some vd.2)) ua.2
                 | None => false
                 end) G.

Definition same_graphb (G G' : Graph) : bool := sublisted G G' && sublisted G' G.

(** Two adjacency structures of one graph: the same nodes and, between
    any two nodes, the same edge data, in whatever order the nodes and
    the neighbours are listed (two Python dictionaries that compare
    equal). *)
Definition same_graph (G G' : Graph) : Prop :=
  (∀ n, n ∈ G.*1 ↔ n ∈ G'.*1) ∧ ∀ u v, edge G u v = edge G' u v.

(** ** Example graphs *)

Definition one (w : Z) : edge_data := MultiEdge [(0, Some w)].

(** The end-to-end example of the specification: A–B (1), B–D (1),
    A–C (5), C–D (1), with A, B, C, D = 1, 2, 3, 4 and an isolated E = 5. *)
Definition G_abcd : Graph :=
  [ (1, [(2, one 1); (3, one 5)]);
    (2, [(1, one 1); (4, one 1)]);
    (3, [(1, one 5); (4, one 1)]);
    (4, [(2, one 1); (3, one 1)]);
    (5, []) ].

(** The state the search from A = 1 for B = 2 is left in. *)
Definition G_abcd_search : locals :=
  match (while_pq 20 2 (start G_abcd 1) G_abcd).1 with
  | Ok st => st
  | _ => start G_abcd 1
  end.

(** Two parallel edges between A = 1 and B = 2: key 0 of length 5, key 1
    of length 3. *)
Definition par53 : edge_data := MultiEdge [(0, Some 5); (1, Some 3)].

Definition G_par : Graph := [ (1, [(2, par53)]); (2, [(1, par53)]) ].

(** An edge of negative length. *)
Definition G_neg : Graph :=
  [ (1, [(2, one (-1))]);
    (2, [(1, one (-1)); (3, one 4)]);
    (3, [(2, one 4)]) ].

(** A chain [o] – [v] – [d], the first edge of length [w1], the second of
    length [w2]. *)
Definition G_chain (o v d w1 w2 : Z) : Graph :=
  [ (o, [(v, one w1)]);
    (v, [(o, one w1); (d, one w2)]);
    (d, [(v, one w2)]) ].

(** A square with two equally short routes from 1 to 4, and the same
    graph with nodes and neighbours listed the other way round. *)
Definition G_tie : Graph :=
  [ (1, [(2, one 1); (3, one 1)]);
    (2, [(1, one 1); (4, one 1)]);
    (3, [(1, one 1); (4, one 1)]);
    (4, [(2, one 1); (3, one 1)]) ].

Definition G_tie_relisted : Graph :=
  [ (4, [(3, one 1); (2, one 1)]);
    (3, [(4, one 1); (1, one 1)]);
    (2, [(4, one 1); (1, one 1)]);
    (1, [(3, one 1); (2, one 1)]) ].

(** A simple [Graph]: an edge with a length, an edge without. *)
Definition G_simple : Graph :=
  [ (1, [(2, SimpleEdge (Some 7)); (3, SimpleEdge None)]);
    (2, [(1, SimpleEdge (Some 7))]);
    (3, [(1, SimpleEdge None)]) ].

(** * Properties *)

(** ** The monad only reads the graph *)

Definition reads {A : Type} (m : M A) : Prop := ∀ G, (m G).2 = G.

Lemma reads_ret {A} (a : A) : reads (ret a).
Proof. intros G. reflexivity. Qed.

Lemma reads_raise {A} e : reads (@raise A e).
Proof. intros G. reflexivity. Qed.

Lemma reads_timeout {A} : reads (@timeout A).
Proof. intros G. reflexivity. Qed.

Lemma reads_bind {A B} (m : M A) (f : A → M B) :
  reads m → (∀ a, reads (f a)) → reads (bind m f).
Proof.
  intros Hm Hf G. unfold bind. specialize (Hm G).
  destruct (m G) as [[a|e|] G']; simpl in *; subst; auto.
  apply Hf.
Qed.

Lemma reads_try {A} (m h : M A) :
  reads m → reads h → reads (try_except_KeyError m h).
Proof.
  intros Hm Hh G. unfold try_except_KeyError. specialize (Hm G).
  destruct (m G) as [[a|[]|] G']; simpl in *; subst; auto.
Qed.

Lemma reads_dict_get {A} (d : gmap Z A) k : reads (dict_get d k).
Proof. unfold dict_get. destruct (d !! k); [apply reads_ret | apply reads_raise]. Qed.

Lemma reads_G_nodes : reads G_nodes.
Proof. intros G. reflexivity. Qed.

Lemma reads_G_neighbors n : reads (G_neighbors n).
Proof. intros G. unfold G_neighbors. destruct (assoc n G); reflexivity. Qed.

Lemma reads_G_getitem u v : reads (G_getitem u v).
Proof.
  intros G. unfold G_getitem.
  destruct (assoc u G) as [a|]; [destruct (assoc v a)|]; reflexivity.
Qed.

Ltac reads_tac :=
  repeat (intros; first
    [ apply reads_bind | apply reads_try | apply reads_ret | apply reads_raise
    | apply reads_timeout | apply reads_dict_get | apply reads_G_nodes
    | apply reads_G_neighbors | apply reads_G_getitem
    | match goal with |- reads (match ?x with _ => _ end) => destruct x end
    | match goal with |- reads (if ?x then _ else _) => destruct x end
    | assumption ]).

Lemma reads_peso_of u v : reads (peso_of u v).
Proof. unfold peso_of, length_key0, length_direct. reads_tac. Qed.

Lemma reads_relax u d v st : reads (relax u d v st).
Proof. unfold relax. pose proof (reads_peso_of u v). reads_tac. Qed.

Lemma reads_for_vizinho u d nbrs : ∀ st, reads (for_vizinho u d nbrs st).
Proof.
  induction nbrs as [|v nbrs IH]; intros st; simpl.
  - apply reads_ret.
  - apply reads_bind; [apply reads_relax | auto].
Qed.

Lemma reads_while_pq fuel destino : ∀ st, reads (while_pq fuel destino st).
Proof.
  induction fuel as [|fuel IH]; intros st; simpl.
  - apply reads_timeout.
  - pose proof (reads_for_vizinho).
    destruct (heappop (pq st)) as [[[d u] q]|]; reads_tac; auto.
Qed.

Lemma reads_walk_back fuel pred : ∀ n caminho, reads (walk_back fuel pred n caminho).
Proof.
  induction fuel as [|fuel IH]; intros [n|] caminho; simpl; reads_tac; auto.
Qed.

Lemma reads_dijkstra fuel origem destino : reads (dijkstra fuel origem destino).
Proof.
  unfold dijkstra.
  pose proof (reads_while_pq fuel destino).
  pose proof (reads_walk_back fuel).
  reads_tac; auto.
Qed.

Lemma reads_run {A} (m : M A) G r G' : reads m → m G = (r, G') → G' = G.
Proof. intros Hm E. specialize (Hm G). rewrite E in Hm. exact Hm. Qed.

(** ** What each step computes *)

Lemma G_getitem_eq u v G :
  G_getitem u v G =
  (match edge G u v with Some d => Ok d | None => Raise KeyError end, G).
Proof.
  unfold G_getitem, edge.
  destruct (assoc u G) as [a|]; [destruct (assoc v a)|]; reflexivity.
Qed.

Lemma peso_of_weight u v G : peso_of u v G = (Ok (weight G u v), G).
Proof.
  unfold peso_of, try_except_KeyError, length_key0, length_direct, bind, weight.
  rewrite G_getitem_eq.
  destruct (edge G u v) as [dat|] eqn:E; simpl; rewrite ?G_getitem_eq, ?E;
    [|reflexivity].
  unfold data_weight.
  destruct (key0_length dat) as [w|]; simpl; rewrite ?G_getitem_eq, ?E;
    [reflexivity|].
  destruct (direct_length dat) as [w|]; reflexivity.
Qed.

Lemma relax_eq u d v st G :
  relax u d v st G =
  (match weight G u v with
   | None => Ok st
   | Some w =>
       match distancias st !! v with
       | None => Raise KeyError
       | Some dv => if lt_num (d + w) dv then Ok (relaxed u (d + w) v st) else Ok st
       end
   end, G).
Proof.
  unfold relax, bind. rewrite peso_of_weight.
  destruct (weight G u v) as [w|]; [|reflexivity].
  unfold dict_get. destruct (distancias st !! v) as [dv|]; [|reflexivity].
  unfold ret. cbv beta iota.
  destruct (lt_num (d + w) dv); reflexivity.
Qed.

Lemma for_vizinho_cons u d v nbrs st G :
  for_vizinho u d (v :: nbrs) st G =
  match relax u d v st G with
  | (Ok st', G') => for_vizinho u d nbrs st' G'
  | (Raise e, G') => (Raise e, G')
  | (OutOfFuel, G') => (OutOfFuel, G')
  end.
Proof. reflexivity. Qed.

Lemma G_neighbors_eq n G :
  G_neighbors n G =
  (match assoc n G with Some _ => Ok (neighbors G n) | None => Raise NetworkXError end, G).
Proof. unfold G_neighbors, neighbors. destruct (assoc n G); reflexivity. Qed.

Lemma assoc_Some_elem {A} k (l : list (Z * A)) a : assoc k l = Some a → (k, a) ∈ l.
Proof.
  induction l as [|[k' a'] l IH]; simpl; [done|].
  case_bool_decide; intros E.
  - injection E as <-. subst. left.
  - right. auto.
Qed.

Lemma assoc_is_Some {A} k (l : list (Z * A)) : is_Some (assoc k l) ↔ k ∈ l.*1.
Proof.
  induction l as [|[k' a'] l IH]; simpl.
  - split; [intros [? ?]; done | intros H; inversion H].
  - rewrite elem_of_cons. case_bool_decide; subst.
    + split; [intros _; by left | eauto].
    + rewrite IH. naive_solver.
Qed.

Lemma assoc_None {A} k (l : list (Z * A)) : assoc k l = None ↔ k ∉ l.*1.
Proof. rewrite <- assoc_is_Some, eq_None_not_Some. done. Qed.

Lemma dict_from_lookup {A} nodes (v : A) n :
  dict_from nodes v !! n = if bool_decide (n ∈ nodes) then Some v else None.
Proof.
  unfold dict_from. induction nodes as [|m nodes IH]; simpl.
  - rewrite lookup_empty. reflexivity.
  - rewrite lookup_insert. destruct (decide (m = n)) as [->|Hne].
    + rewrite bool_decide_eq_true_2; [done | by left].
    + fold (@fmap list _ Z (Z * A)%type (λ n0 : Z, (n0, v)) nodes). rewrite IH.
      rewrite (bool_decide_ext (n ∈ m :: nodes) (n ∈ nodes)); [done|].
      rewrite elem_of_cons. naive_solver.
Qed.

(** ** The priority queue *)

Lemma lex_le_fst a b : lex_le a b = true → a.1 ≤ b.1.
Proof.
  unfold lex_le. rewrite orb_true_iff, andb_true_iff, !bool_decide_eq_true. lia.
Qed.

Lemma lex_le_refl a : lex_le a a = true.
Proof.
  unfold lex_le. rewrite orb_true_iff, andb_true_iff, !bool_decide_eq_true. lia.
Qed.

Lemma lex_le_trans a b c : lex_le a b = true → lex_le b c = true → lex_le a c = true.
Proof.
  unfold lex_le. rewrite !orb_true_iff, !andb_true_iff, !bool_decide_eq_true. lia.
Qed.

Lemma lex_le_total a b : lex_le a b = false → lex_le b a = true.
Proof.
  unfold lex_le.
  rewrite orb_false_iff, andb_false_iff, orb_true_iff, andb_true_iff,
    !bool_decide_eq_false, !bool_decide_eq_true. lia.
Qed.

Lemma heappop_None q : heappop q = None ↔ q = [].
Proof.
  destruct q as [|x q]; simpl; [done|].
  destruct (heappop q) as [[m r]|]; [destruct (lex_le x m)|]; done.
Qed.

Lemma heappop_perm q m r : heappop q = Some (m, r) → q ≡ₚ m :: r.
Proof.
  revert m r. induction q as [|x q IH]; intros m r; simpl; [done|].
  destruct (heappop q) as [[m' r']|] eqn:E.
  - destruct (lex_le x m'); intros [= <- <-]; [done|].
    rewrite (IH _ _ eq_refl). apply perm_swap.
  - apply heappop_None in E as ->. intros [= <- <-]. done.
Qed.

Lemma heappop_least q m r x : heappop q = Some (m, r) → x ∈ q → lex_le m x = true.
Proof.
  revert m r. induction q as [|y q IH]; intros m r; simpl; [done|].
  destruct (heappop q) as [[m' r']|] eqn:E.
  - destruct (lex_le y m') eqn:L; intros [= <- <-]; rewrite elem_of_cons;
      intros [->|Hx].
    + apply lex_le_refl.
    + eapply lex_le_trans; [exact L|]. eapply IH; eauto.
    + by apply lex_le_total.
    + eapply IH; eauto.
  - apply heappop_None in E as ->. intros [= <- <-]. rewrite elem_of_cons.
    intros [->|Hx]; [apply lex_le_refl | inversion Hx].
Qed.

Lemma heappop_elem q m r x : heappop q = Some (m, r) → x ∈ q ↔ x = m ∨ x ∈ r.
Proof. intros E. rewrite (heappop_perm _ _ _ E), elem_of_cons. done. Qed.

Lemma heappop_length q m r : heappop q = Some (m, r) → length q = S (length r).
Proof. intros E. rewrite (heappop_perm _ _ _ E). done. Qed.

(** ** The graph *)

Lemma neighbors_edge G u v : v ∈ neighbors G u ↔ is_Some (edge G u v).
Proof.
  unfold neighbors, edge. destruct (assoc u G) as [a|].
  - symmetry. apply assoc_is_Some.
  - split; [intros H; inversion H | intros [? ?]; done].
Qed.

Lemma edge_node_l G u v d : edge G u v = Some d → u ∈ G.*1.
Proof.
  unfold edge. destruct (assoc u G) as [a|] eqn:E; [|done].
  intros _. apply assoc_is_Some. rewrite E. eauto.
Qed.

Lemma wf_edge_sym G u v d : wf_graph G → edge G u v = Some d → edge G v u = Some d.
Proof.
  unfold wf_graph, wf_graphb. rewrite forallb_forall. intros Hwf.
  unfold edge at 1. destruct (assoc u G) as [a|] eqn:Eu; [|done]. intros Ev.
  apply assoc_Some_elem in Eu, Ev.
  specialize (Hwf (u, a)). rewrite forallb_forall in Hwf.
  apply list_elem_of_In in Eu, Ev.
  specialize (Hwf Eu (v, d) Ev). simpl in Hwf.
  by apply bool_decide_eq_true in Hwf.
Qed.

Lemma wf_edge_node G u v d : wf_graph G → edge G u v = Some d → v ∈ G.*1.
Proof. intros Hwf E. eapply edge_node_l, wf_edge_sym; eauto. Qed.

Lemma weight_edge G u v w : weight G u v = Some w → is_Some (edge G u v).
Proof. unfold weight. destruct (edge G u v); [eauto | done]. Qed.

Lemma weight_lengths G u v w : weight G u v = Some w → w ∈ lengths G u v.
Proof.
  unfold weight, lengths, data_weight.
  destruct (edge G u v) as [[keys|len]|]; simpl; [| |done].
  - destruct (assoc 0 keys) as [[w'|]|] eqn:E; try done. intros [= ->].
    apply assoc_Some_elem in E. apply list_elem_of_omap. by exists (0, Some w).
  - intros ->. simpl. by left.
Qed.

Lemma route0_route G u v c : route0 G u v c → route G u v c.
Proof.
  induction 1 as [|v x c w _ IH E]; [by constructor|].
  econstructor; [exact IH|]. by apply weight_lengths.
Qed.

Lemma route_connected G u v c : route G u v c → connected G u v.
Proof.
  induction 1 as [|v x c w _ IH E]; [by constructor|].
  econstructor; [exact IH|]. apply neighbors_edge.
  unfold lengths in E. destruct (edge G v x); [eauto | inversion E].
Qed.

Lemma pending_empty G : pending G ∅ = total_degree G.
Proof.
  unfold pending, total_degree. induction G as [|[u a] G IH]; simpl; [done|].
  rewrite bool_decide_eq_false_2 by set_solver. by rewrite IH.
Qed.

Lemma pending_mono G u vis : (pending G ({[u]} ∪ vis) ≤ pending G vis)%nat.
Proof.
  unfold pending. induction G as [|[u' a'] G IH]; simpl; [done|].
  repeat case_bool_decide; try lia. set_solver.
Qed.

Lemma pending_visit G u a vis :
  assoc u G = Some a → u ∉ vis →
  (pending G ({[u]} ∪ vis) + length a ≤ pending G vis)%nat.
Proof.
  unfold pending. induction G as [|[u' a'] G IH]; simpl; [done|].
  intros E Hu. case_bool_decide as Hk.
  - injection E as ->. subst u'.
    rewrite bool_decide_eq_true_2 by set_solver.
    rewrite bool_decide_eq_false_2 by done.
    pose proof (pending_mono G u vis) as Hm. unfold pending in Hm. lia.
  - specialize (IH E Hu). repeat case_bool_decide; try lia. set_solver.
Qed.

(** ** The search raises nothing and ends, whatever the lengths *)

Section Safety.
Variable G : Graph.
Variable origem : Z.
Hypothesis Hwf : wf_graph G.

(** Every key the function looks up is there, and only nodes that can
    be reached from the origin enter the queue or get a predecessor. *)
Record safe (st : locals) : Prop := Safe {
  safe_dist : ∀ n, n ∈ G.*1 → is_Some (distancias st !! n);
  safe_pred : ∀ n, is_Some (predecessores st !! n) ↔ n ∈ G.*1;
  safe_pq : ∀ k n, (k, n) ∈ pq st → n ∈ G.*1 ∧ ∃ c, route0 G origem n c;
  safe_parent : ∀ v u, predecessores st !! v = Some (Some u) →
                       u ∈ G.*1 ∧ ∃ c, route0 G origem v c
}.

Lemma relax_safe u d v st :
  safe st → u ∈ G.*1 → (∃ c, route0 G origem u c) →
  ∃ st', relax u d v st G = (Ok st', G) ∧ safe st' ∧
         visitados st' = visitados st ∧
         (length (pq st') ≤ S (length (pq st)))%nat.
Proof.
  intros [Hd Hp Hq Hpar] Hu [c Hc]. rewrite relax_eq.
  destruct (weight G u v) as [w|] eqn:W.
  2:{ exists st. split; [done|]. split; [by split|]. split; [done|lia]. }
  assert (v ∈ G.*1) as Hv.
  { destruct (weight_edge _ _ _ _ W) as [e He]. eapply wf_edge_node; eauto. }
  destruct (Hd v Hv) as [dv ->].
  destruct (lt_num (d + w) dv).
  2:{ exists st. split; [done|]. split; [by split|]. split; [done|lia]. }
  exists (relaxed u (d + w) v st). split; [done|]. split; [|split; simpl; [done|lia]].
  split; simpl.
  - intros n Hn. rewrite lookup_insert. case_decide; eauto.
  - intros n. rewrite lookup_insert. case_decide; subst; [|apply Hp].
    split; eauto.
  - intros k n. unfold heappush. rewrite elem_of_cons. intros [[= -> ->]|Hin].
    + split; [done|]. exists (c + w). econstructor; eauto.
    + eauto.
  - intros x y. rewrite lookup_insert. case_decide; subst.
    + intros [= <-]. split; [done|]. exists (c + w). econstructor; eauto.
    + apply Hpar.
Qed.

Lemma for_vizinho_safe u d nbrs : ∀ st,
  safe st → u ∈ G.*1 → (∃ c, route0 G origem u c) →
  ∃ st', for_vizinho u d nbrs st G = (Ok st', G) ∧ safe st' ∧
         visitados st' = visitados st ∧
         (length (pq st') ≤ length nbrs + length (pq st))%nat.
Proof.
  induction nbrs as [|v nbrs IH]; intros st Hs Hu Hr.
  - exists st. split; [done|]. split; [done|]. split; [done|simpl; lia].
  - rewrite for_vizinho_cons.
    destruct (relax_safe u d v st Hs Hu Hr) as (st1 & -> & Hs1 & Hv1 & Hl1).
    destruct (IH st1 Hs1 Hu Hr) as (st2 & -> & Hs2 & Hv2 & Hl2).
    exists st2. split; [done|]. split; [done|]. split; [congruence|simpl; lia].
Qed.

Lemma while_pq_safe_or destino fuel : ∀ st,
  safe st →
  (∃ st', while_pq fuel destino st G = (Ok st', G) ∧ safe st') ∨
  (while_pq fuel destino st G = (OutOfFuel, G) ∧
   (fuel ≤ length (pq st) + pending G (visitados st))%nat).
Proof.
  induction fuel as [|fuel IH]; intros st Hs.
  { right. split; [done|lia]. }
  simpl. destruct (heappop (pq st)) as [[[d u] q]|] eqn:Epop.
  2:{ left. exists st. split; [done|]. exact Hs. }
  pose proof (heappop_length _ _ _ Epop) as Hlen.
  assert (∀ k n, (k, n) ∈ q → (k, n) ∈ pq st) as Hsub.
  { intros k n Hin. apply (heappop_elem _ _ _ (k, n) Epop). by right. }
  assert ((d, u) ∈ pq st) as Hdu.
  { apply (heappop_elem _ _ _ (d, u) Epop). by left. }
  destruct Hs as [Hd Hp Hq Hpar].
  destruct (Hq _ _ Hdu) as [Hu Hr].
  case_bool_decide as Hdest.
  { left. eexists. split; [done|]. split; simpl; eauto. }
  case_bool_decide as Hvis.
  { set (st1 := Locals _ _ _ q).
    assert (safe st1) as Hs1 by (split; simpl; eauto).
    destruct (IH st1 Hs1) as [?|[-> Hf]]; [by left|].
    right. split; [done|]. simpl in Hf. lia. }
  unfold bind. rewrite G_neighbors_eq.
  apply assoc_is_Some in Hu as Hu'. destruct Hu' as [a Ea]. rewrite Ea.
  set (st2 := Locals _ _ _ q).
  assert (safe st2) as Hs2 by (split; simpl; eauto).
  destruct (for_vizinho_safe u d (neighbors G u) st2 Hs2 Hu Hr)
    as (st3 & -> & Hs3 & Hv3 & Hl3).
  destruct (IH st3 Hs3) as [?|[-> Hf]]; [by left|].
  right. split; [done|]. rewrite Hv3 in Hf. simpl in *.
  pose proof (pending_visit G u a (visitados st) Ea Hvis).
  assert (length (neighbors G u) = length a) as Hna.
  { unfold neighbors. rewrite Ea. apply length_fmap. }
  lia.
Qed.

Lemma while_pq_safe destino fuel st :
  safe st →
  (length (pq st) + pending G (visitados st) < fuel)%nat →
  ∃ st', while_pq fuel destino st G = (Ok st', G) ∧ safe st'.
Proof.
  intros Hs Hfuel.
  destruct (while_pq_safe_or destino fuel st Hs) as [?|[_ ?]]; [done|lia].
Qed.

Lemma start_safe : origem ∈ G.*1 → safe (start G origem).
Proof.
  intros Ho. split; simpl.
  - intros n Hn. rewrite lookup_insert. case_decide; [eauto|].
    rewrite dict_from_lookup, bool_decide_eq_true_2; eauto.
  - intros n. rewrite dict_from_lookup. case_bool_decide; split; eauto;
      [intros [? ?]|]; done.
  - intros k n. rewrite list_elem_of_singleton. intros [= -> ->].
    split; [done|]. exists 0. by constructor.
  - intros v u. rewrite dict_from_lookup. case_bool_decide; done.
Qed.

Lemma while_pq_start destino fuel :
  origem ∈ G.*1 → (total_degree G + 2 ≤ fuel)%nat →
  ∃ st', while_pq fuel destino (start G origem) G = (Ok st', G) ∧ safe st'.
Proof.
  intros Ho Hfuel. apply while_pq_safe; [by apply start_safe|].
  simpl. rewrite pending_empty. lia.
Qed.

(** Walking back along the predecessors raises nothing either. *)
Lemma walk_back_no_raise st fuel : ∀ n caminho e,
  safe st → (∀ x, n = Some x → x ∈ G.*1) →
  (walk_back fuel (predecessores st) n caminho G).1 ≠ Raise e.
Proof.
  induction fuel as [|fuel IH]; intros [n|] caminho e Hs Hn; simpl; try done.
  unfold bind, dict_get.
  destruct (proj2 (safe_pred _ Hs n) (Hn n eq_refl)) as [p Ep]. rewrite Ep.
  simpl. apply IH; [done|]. intros x ->.
  by destruct (safe_parent _ Hs _ _ Ep).
Qed.
End Safety.

Lemma dijkstra_eq fuel origem destino G :
  dijkstra fuel origem destino G =
  match while_pq fuel destino (start G origem) G with
  | (Ok st, G') =>
      match predecessores st !! destino with
      | None => (Raise KeyError, G')
      | Some p =>
          if bool_decide (p = None) && bool_decide (destino ≠ origem) then
            (Ok ([], Inf), G')
          else
            match walk_back fuel (predecessores st) (Some destino) [] G' with
            | (Ok caminho, G'') =>
                match distancias st !! destino with
                | Some custo => (Ok (reverse caminho, custo), G'')
                | None => (Raise KeyError, G'')
                end
            | (Raise e, G'') => (Raise e, G'')
            | (OutOfFuel, G'') => (OutOfFuel, G'')
            end
      end
  | (Raise e, G') => (Raise e, G')
  | (OutOfFuel, G') => (OutOfFuel, G')
  end.
Proof.
  unfold dijkstra, bind, G_nodes, start.
  destruct (while_pq _ _ _ G) as [[st|e|] G']; try reflexivity.
  unfold dict_get at 1.
  destruct (predecessores st !! destino) as [p|]; [|reflexivity].
  unfold ret at 1. cbv beta iota.
  destruct (bool_decide (p = None) && bool_decide (destino ≠ origem));
    [reflexivity|].
  destruct (walk_back _ _ _ _ G') as [[c|e|] G'']; try reflexivity.
  unfold dict_get. destruct (distancias st !! destino); reflexivity.
Qed.

(** ** More fuel changes no result *)

Lemma while_pq_fuel_mono destino fuel : ∀ G st st' G' fuel',
  while_pq fuel destino st G = (Ok st', G') → (fuel ≤ fuel')%nat →
  while_pq fuel' destino st G = (Ok st', G').
Proof.
  induction fuel as [|fuel IH]; intros G st st' G' fuel' E Hle; [done|].
  destruct fuel' as [|fuel']; [lia|]. simpl in *.
  destruct (heappop (pq st)) as [[[d u] q]|]; [|done].
  repeat case_bool_decide; try done.
  - apply IH; [done|lia].
  - unfold bind in *. destruct (G_neighbors u G) as [[nbrs|e|] G1]; try done.
    destruct (for_vizinho u d nbrs _ G1) as [[st3|e|] G2]; try done.
    apply IH; [done|lia].
Qed.

Lemma walk_back_fuel_mono pred fuel : ∀ G n caminho r G' fuel',
  walk_back fuel pred n caminho G = (Ok r, G') → (fuel ≤ fuel')%nat →
  walk_back fuel' pred n caminho G = (Ok r, G').
Proof.
  induction fuel as [|fuel IH]; intros G [n|] caminho r G' fuel' E Hle;
    destruct fuel' as [|fuel']; simpl in *; try done; try lia.
  unfold bind in *. destruct (dict_get pred n G) as [[p|e|] G1]; try done.
  apply IH; [done|lia].
Qed.

Lemma dijkstra_fuel_mono fuel fuel' origem destino G r G' :
  dijkstra fuel origem destino G = (Ok r, G') → (fuel ≤ fuel')%nat →
  dijkstra fuel' origem destino G = (Ok r, G').
Proof.
  rewrite !dijkstra_eq. intros E Hle.
  destruct (while_pq fuel _ _ G) as [[st|e|] G1] eqn:Ew; try done.
  rewrite (while_pq_fuel_mono _ _ _ _ _ _ _ Ew Hle).
  destruct (predecessores st !! destino) as [p|]; [|done].
  destruct (bool_decide (p = None) && bool_decide (destino ≠ origem)); [done|].
  destruct (walk_back fuel _ _ _ G1) as [[c|e|] G2] eqn:Eb; try done.
  by rewrite (walk_back_fuel_mono _ _ _ _ _ _ _ _ Eb Hle).
Qed.

(** A cycle of predecessors is walked for ever. *)
Lemma walk_back_cycle pred a b G : ∀ fuel caminho,
  pred !! a = Some (Some b) → pred !! b = Some (Some a) →
  (walk_back fuel pred (Some a) caminho G).1 = OutOfFuel.
Proof.
  intros fuel caminho Ha Hb.
  enough (∀ c, (walk_back fuel pred (Some a) c G).1 = OutOfFuel ∧
               (walk_back fuel pred (Some b) c G).1 = OutOfFuel) as H
    by apply H.
  induction fuel as [|fuel IH]; intros c; [done|].
  simpl. unfold bind, dict_get. rewrite Ha, Hb. simpl.
  split; apply IH.
Qed.

(** ** Runs on the example graphs *)

Lemma dijkstra_G_par : dijkstra 5 1 2 G_par = (Ok ([1; 2], Fin 5), G_par).
Proof. vm_compute. reflexivity. Qed.

Lemma dijkstra_G_abcd : dijkstra 20 1 4 G_abcd = (Ok ([1; 2; 4], Fin 2), G_abcd).
Proof. vm_compute. reflexivity. Qed.


Lemma dijkstra_G_simple : dijkstra 20 1 2 G_simple = (Ok ([1; 2], Fin 7), G_simple).
Proof. vm_compute. reflexivity. Qed.

(** A negative length can close a cycle of predecessors: 2 is labelled -1
    through 1, then 1 is labelled -2 through 2; walking back from 3 never
    meets [None], whatever the fuel. *)
Lemma dijkstra_G_neg_cycle fuel : (dijkstra fuel 1 3 G_neg).1 = OutOfFuel.
Proof.
  destruct (decide (fuel < 5)%nat) as [Hlt|Hge].
  { do 5 (destruct fuel as [|fuel]; [vm_compute; reflexivity|]). lia. }
  rewrite dijkstra_eq.
  destruct (while_pq 5 3 (start G_neg 1) G_neg) as [[st|e|] G1] eqn:Ew;
    try (vm_compute in Ew; discriminate).
  rewrite (while_pq_fuel_mono _ _ _ _ _ _ fuel Ew) by lia.
  assert (predecessores st !! 3 = Some (Some 2) ∧
          predecessores st !! 2 = Some (Some 1) ∧
          predecessores st !! 1 = Some (Some 2)) as (H3 & H2 & H1).
  { vm_compute in Ew. injection Ew as <- <-. vm_compute. done. }
  rewrite H3. simpl.
  destruct fuel as [|fuel]; [lia|]. simpl. unfold bind, dict_get. rewrite H3.
  simpl.
  pose proof (walk_back_cycle (predecessores st) 2 1 G1 fuel [3] H2 H1) as Hc.
  destruct (walk_back fuel _ _ _ G1) as [[c|e|] G2]; simpl in Hc; done.
Qed.

(** ** With non-negative lengths the labels are shortest distances *)

Lemma trail_agree G pred pred' o v l c :
  trail G pred o v l c → (∀ x, x ∈ l → pred' !! x = pred !! x) →
  trail G pred' o v l c.
Proof.
  induction 1 as [Ho|v u l c w Hv Hw _ IH]; intros Hag.
  - constructor. rewrite Hag; [done | by left].
  - econstructor; eauto.
    + rewrite Hag; [done | by left].
    + apply IH. intros x Hx. apply Hag. by right.
Qed.

Lemma trail_head G pred o v l c : trail G pred o v l c → ∃ l', l = v :: l'.
Proof. destruct 1; eauto. Qed.

Lemma trail_walk_back G pred o v l c : ∀ fuel caminho,
  trail G pred o v l c → (length l ≤ fuel)%nat →
  walk_back fuel pred (Some v) caminho G = (Ok (caminho ++ l), G).
Proof.
  intros fuel caminho H. revert fuel caminho.
  induction H as [Ho|v u l c w Hv Hw _ IH]; intros fuel caminho Hlen;
    (destruct fuel as [|fuel]; [simpl in Hlen; lia|]); simpl;
    unfold bind, dict_get.
  - rewrite Ho. simpl. by destruct fuel.
  - rewrite Hv. simpl. rewrite IH by (simpl in Hlen; lia).
    by rewrite <- app_assoc.
Qed.

Lemma trail_route0 G pred o v l c : o ∈ G.*1 → trail G pred o v l c → route0 G o v c.
Proof.
  intros Ho. induction 1 as [|v u l c w Hv Hw _ IH]; [by constructor|].
  econstructor; eauto.
Qed.

Lemma is_walk_snoc G q u v :
  last q = Some u → is_walk G q → v ∈ neighbors G u → is_walk G (q ++ [v]).
Proof.
  induction q as [|a q IH]; [done|].
  destruct q as [|b q]; simpl.
  - intros [= ->] _ Hv. done.
  - intros Hl [Hab Hw] Hv. split; [done|]. apply IH; done.
Qed.

Lemma sum_along_snoc f q u v c w :
  last q = Some u → sum_along f q = Some c → f u v = Some w →
  sum_along f (q ++ [v]) = Some (c + w).
Proof.
  revert c. induction q as [|a q IH]; intros c; [done|].
  destruct q as [|b q].
  - simpl. intros [= ->] [= <-] ->. f_equal. lia.
  - intros Hl Hs Hf. change (last (a :: b :: q)) with (last (b :: q)) in Hl.
    change (sum_along f (a :: b :: q)) with
      (match f a b, sum_along f (b :: q) with
       | Some w, Some c => Some (w + c) | _, _ => None end) in Hs.
    change (sum_along f ((a :: b :: q) ++ [v])) with
      (match f a b, sum_along f ((b :: q) ++ [v]) with
       | Some w, Some c => Some (w + c) | _, _ => None end).
    destruct (f a b) as [wab|]; [|done].
    destruct (sum_along f (b :: q)) as [c'|]; [|done].
    injection Hs as <-. rewrite (IH c' Hl eq_refl Hf). f_equal. lia.
Qed.

Lemma trail_path G pred o v l c :
  trail G pred o v l c →
  head (reverse l) = Some o ∧ last (reverse l) = Some v ∧
  is_walk G (reverse l) ∧ sum_along (weight G) (reverse l) = Some c.
Proof.
  induction 1 as [|v u l c w Hv Hw Ht (Hh & Hl & Hwk & Hs)]; [done|].
  rewrite reverse_cons. repeat split.
  - rewrite head_app. by rewrite Hh.
  - apply last_snoc.
  - eapply is_walk_snoc; eauto. apply neighbors_edge. eapply weight_edge; eauto.
  - eapply sum_along_snoc; eauto.
Qed.

Section Optimal.
Variable G : Graph.
Variables origem destino : Z.
Hypothesis Hnn : ∀ u v w, weight G u v = Some w → 0 ≤ w.

(** The invariant of the search loop.  [todo u v] holds for the edges
    out of a visited node not relaxed yet: none between two rounds of
    the loop, those to the neighbours still to come inside the [for]. *)
Record inv (todo : Z → Z → Prop) (st : locals) : Prop := Inv {
  inv_origin : distancias st !! origem = Some (Fin 0) ∧
               predecessores st !! origem = Some None;
  inv_nonneg : ∀ v c, distancias st !! v = Some (Fin c) → 0 ≤ c;
  inv_pq_le : ∀ k n, (k, n) ∈ pq st →
              ∃ c, distancias st !! n = Some (Fin c) ∧ c ≤ k;
  inv_pq_in : ∀ n c, distancias st !! n = Some (Fin c) → n ∉ visitados st →
              (c, n) ∈ pq st;
  inv_vis_le : ∀ v c k n, v ∈ visitados st →
               distancias st !! v = Some (Fin c) → (k, n) ∈ pq st → c ≤ k;
  inv_relaxed : ∀ u v w cu, u ∈ visitados st → weight G u v = Some w →
                distancias st !! u = Some (Fin cu) → ¬ todo u v →
                ∃ cv, distancias st !! v = Some (Fin cv) ∧ cv ≤ cu + w;
  inv_parent : ∀ v u, predecessores st !! v = Some (Some u) →
               u ∈ visitados st ∧
               ∃ cu w, distancias st !! u = Some (Fin cu) ∧
                       weight G u v = Some w ∧
                       distancias st !! v = Some (Fin (cu + w));
  inv_labelled : ∀ v c, distancias st !! v = Some (Fin c) →
                 v = origem ∨ ∃ u, predecessores st !! v = Some (Some u);
  inv_trail : ∀ u, u ∈ visitados st →
              ∃ l c, trail G (predecessores st) origem u l c ∧
                     distancias st !! u = Some (Fin c) ∧
                     Forall (λ x, x ∈ visitados st) l ∧
                     NoDup l ∧
                     (length l ≤ size (visitados st))%nat;
  inv_destino : destino ∉ visitados st
}.

(** Inside the [for] loop over the neighbours of [u], taken from the
    queue at distance [d]. *)
Definition expanding (u d : Z) (rest : list Z) (st : locals) : Prop :=
  inv (λ x v, x = u ∧ v ∈ rest) st ∧
  u ∈ visitados st ∧
  distancias st !! u = Some (Fin d) ∧
  (∀ x c, x ∈ visitados st → distancias st !! x = Some (Fin c) → c ≤ d) ∧
  (∀ k n, (k, n) ∈ pq st → d ≤ k).

Lemma expanding_skip u d v rest st :
  expanding u d (v :: rest) st →
  (∀ w, weight G u v = Some w →
        ∃ cv, distancias st !! v = Some (Fin cv) ∧ cv ≤ d + w) →
  expanding u d rest st.
Proof.
  intros ([Ha Hb Hc Hd He Hf Hg Hh Hi Hj] & Hu & Hdu & Hle & Hk) Hv.
  split; [|done]. split; try done.
  intros x y w cx Hx Hw Hcx Htodo.
  destruct (decide (x = u ∧ y = v)) as [[-> ->]|Hne].
  - rewrite Hdu in Hcx. injection Hcx as <-. by apply Hv.
  - apply (Hf x y w cx); try done. rewrite elem_of_cons. naive_solver.
Qed.

Lemma relax_inv u d v rest st st' G' :
  expanding u d (v :: rest) st → relax u d v st G = (Ok st', G') →
  expanding u d rest st'.
Proof.
  intros Hex. rewrite relax_eq.
  destruct (weight G u v) as [w|] eqn:Hw.
  2:{ intros [= <- <-]. apply (expanding_skip u d v); [done|]. congruence. }
  destruct (distancias st !! v) as [dv|] eqn:Hdv; [|done].
  destruct (lt_num (d + w) dv) eqn:Hlt; intros [= <- <-].
  2:{ apply (expanding_skip u d v); [done|]. intros w' Hw'. assert (w' = w) as -> by congruence.
      destruct dv as [cv|]; [|done]. exists cv. split; [done|].
      simpl in Hlt. apply bool_decide_eq_false in Hlt. lia. }
  destruct Hex as ([Ha Hb Hc Hd He Hf Hg Hh Hi Hj] & Hu & Hdu & Hle & Hk).
  pose proof (Hnn _ _ _ Hw) as Hw0.
  pose proof (Hb _ _ Hdu) as Hd0.
  assert (v ∉ visitados st) as Hvv.
  { intros Hin. destruct (Hi v Hin) as (l & c & _ & Hc' & _).
    rewrite Hdv in Hc'. injection Hc' as ->.
    specialize (Hle v c Hin Hdv). simpl in Hlt.
    apply bool_decide_eq_true in Hlt. lia. }
  assert (v ≠ origem) as Hvo.
  { intros ->. destruct Ha as [Ha _]. rewrite Hdv in Ha. injection Ha as ->.
    simpl in Hlt. apply bool_decide_eq_true in Hlt. lia. }
  assert (u ≠ v) as Huv by (intros ->; done).
  assert (∀ c, dv = Fin c → d + w < c) as Hlt'.
  { intros c ->. simpl in Hlt. by apply bool_decide_eq_true in Hlt. }
  split; [|simpl; repeat split].
  - split; simpl.
    + destruct Ha as [Ha1 Ha2]. by rewrite !lookup_insert_ne.
    + intros x c. rewrite lookup_insert. case_decide; subst.
      * intros [= <-]. lia.
      * apply Hb.
    + intros k n. unfold heappush. rewrite elem_of_cons. intros [[= -> ->]|Hin].
      * exists (d + w). by rewrite lookup_insert_eq.
      * destruct (Hc k n Hin) as (c & Hcn & Hck).
        rewrite lookup_insert. case_decide; subst; [|eauto].
        exists (d + w). split; [done|]. rewrite Hdv in Hcn.
        specialize (Hlt' c). injection Hcn as ->. specialize (Hlt' eq_refl). lia.
    + intros n c. unfold heappush. rewrite lookup_insert, elem_of_cons.
      case_decide; subst.
      * intros [= <-] _. by left.
      * intros Hn Hnv. right. by apply Hd.
    + intros x c k n Hx. rewrite lookup_insert_ne by (intros ->; done).
      intros Hcx. unfold heappush. rewrite elem_of_cons. intros [[= -> ->]|Hin].
      * specialize (Hle x c Hx Hcx). lia.
      * eapply He; eauto.
    + intros x y w' cx Hx Hw'. rewrite lookup_insert_ne by (intros ->; done).
      intros Hcx Htodo.
      destruct (decide (x = u ∧ y = v)) as [[-> ->]|Hne].
      * exists (d + w). rewrite lookup_insert_eq. split; [done|].
        rewrite Hdu in Hcx. rewrite Hw in Hw'. injection Hcx as <-.
        injection Hw' as <-. lia.
      * destruct (Hf x y w' cx) as (cy & Hcy & Hle'); try done.
        { rewrite elem_of_cons. naive_solver. }
        rewrite lookup_insert. case_decide; subst; [|eauto].
        exists (d + w). split; [done|]. rewrite Hdv in Hcy. injection Hcy as ->.
        specialize (Hlt' cy eq_refl). lia.
    + intros a b. rewrite lookup_insert. case_decide; subst.
      * intros [= <-]. split; [done|]. exists d, w.
        rewrite lookup_insert_ne by done. rewrite lookup_insert_eq. done.
      * intros Hab. destruct (Hg a b Hab) as (Hb' & cb & w' & Hcb & Hw' & Hca).
        split; [done|]. exists cb, w'.
        rewrite lookup_insert_ne by (intros ->; done).
        rewrite lookup_insert_ne by done. done.
    + intros a c. rewrite !lookup_insert. case_decide; subst.
      * intros _. right. eauto.
      * apply Hh.
    + intros x Hx. destruct (Hi x Hx) as (l & c & Ht & Hcx & Hall & Hnd & Hlen).
      exists l, c. repeat split; try done.
      * eapply trail_agree; [exact Ht|]. intros y Hy.
        rewrite Forall_forall in Hall. apply lookup_insert_ne.
        intros ->. by apply Hvv, Hall.
      * rewrite lookup_insert_ne by (intros ->; done). done.
    + done.
  - done.
  - by rewrite lookup_insert_ne.
  - intros x c Hx. rewrite lookup_insert_ne by (intros ->; done). by apply Hle.
  - intros k n. unfold heappush. rewrite elem_of_cons. intros [[= -> ->]|Hin].
    + lia.
    + eapply Hk; eauto.
Qed.

Lemma for_vizinho_inv u d nbrs : ∀ st st' G',
  expanding u d nbrs st → for_vizinho u d nbrs st G = (Ok st', G') →
  expanding u d [] st'.
Proof.
  induction nbrs as [|v nbrs IH]; intros st st' G' Hex.
  - by intros [= <- <-].
  - rewrite for_vizinho_cons.
    destruct (relax u d v st G) as [[st1|e|] G1] eqn:E; try done.
    pose proof (reads_run _ _ _ _ (reads_relax u d v st) E) as ->.
    apply IH. eapply relax_inv; eauto.
Qed.

(** Every route to a node ends in a visited node labelled no more than
    its cost, or passes a labelled node not yet visited, labelled no
    more than its cost. *)
Lemma inv_lower_bound st v c :
  inv (λ _ _, False) st → route0 G origem v c →
  (v ∈ visitados st ∧ ∃ cv, distancias st !! v = Some (Fin cv) ∧ cv ≤ c) ∨
  (∃ y cy, (y ∉ visitados st) ∧ distancias st !! y = Some (Fin cy) ∧ cy ≤ c).
Proof.
  intros [Ha Hb Hc Hd He Hf Hg Hh Hi Hj].
  induction 1 as [|v x c w _ IH Hw].
  - destruct Ha as [Ha _].
    destruct (decide (origem ∈ visitados st)); [left|right]; eauto 6 with lia.
  - pose proof (Hnn _ _ _ Hw) as Hw0.
    destruct IH as [(Hv & cv & Hcv & Hle)|(y & cy & Hy & Hcy & Hle)].
    + destruct (Hf v x w cv Hv Hw Hcv) as (cx & Hcx & Hle'); [tauto|].
      destruct (decide (x ∈ visitados st)); [left|right].
      * split; [done|]. exists cx. split; [done|lia].
      * exists x, cx. repeat split; [done..|lia].
    + right. exists y, cy. repeat split; [done..|lia].
Qed.

(** What the state the loop is left in says about the destination. *)
Definition settled (st : locals) : Prop :=
  (distancias st !! origem = Some (Fin 0) ∧
   predecessores st !! origem = Some None) ∧
  (∀ v u, predecessores st !! v = Some (Some u) →
          ∃ l c w, trail G (predecessores st) origem u l c ∧
                   weight G u v = Some w ∧
                   distancias st !! v = Some (Fin (c + w)) ∧
                   Forall (λ x, x ∈ visitados st) l ∧
                   NoDup l ∧
                   (length l ≤ size (visitados st))%nat) ∧
  (∀ v c, distancias st !! v = Some (Fin c) →
          v = origem ∨ ∃ u, predecessores st !! v = Some (Some u)) ∧
  (∀ c, route0 G origem destino c →
        ∃ dd, distancias st !! destino = Some (Fin dd) ∧ dd ≤ c) ∧
(destino ∉ visitados st) ∧
  (∀ x cx cd, x ∈ visitados st → distancias st !! x = Some (Fin cx) →
              distancias st !! destino = Some (Fin cd) → cx ≤ cd).

Lemma inv_settled todo st q :
  inv todo st →
  (∀ c, route0 G origem destino c →
        ∃ dd, distancias st !! destino = Some (Fin dd) ∧ dd ≤ c) →
  settled (Locals (distancias st) (predecessores st) (visitados st) q).
Proof.
  intros [Ha Hb Hc Hd He Hf Hg Hh Hi Hj] Hopt.
  repeat split; simpl; try tauto; try done.
  2:{ intros x cx cd Hx Hcx Hcd. eapply He; eauto. }
  intros v u Hvu. destruct (Hg v u Hvu) as (Hu & cu & w & Hcu & Hw & Hcv).
  destruct (Hi u Hu) as (l & c & Ht & Hc' & Hall & Hnd & Hlen).
  exists l, c, w. rewrite Hcu in Hc'. injection Hc' as ->. done.
Qed.

Lemma inv_pop st d u q :
  inv (λ _ _, False) st → heappop (pq st) = Some ((d, u), q) →
  inv (λ _ _, False) (Locals (distancias st) (predecessores st) (visitados st) q)
  ∨ u ∉ visitados st.
Proof.
  intros [Ha Hb Hc Hd He Hf Hg Hh Hi Hj] Epop.
  destruct (decide (u ∈ visitados st)) as [Hu|Hu]; [left|by right].
  assert (∀ k n, (k, n) ∈ q → (k, n) ∈ pq st) as Hsub.
  { intros k n Hin. apply (heappop_elem _ _ _ (k, n) Epop). by right. }
  split; simpl; eauto.
  intros n c Hn Hnv. specialize (Hd n c Hn Hnv).
  apply (heappop_elem _ _ _ (c, n) Epop) in Hd as [[= -> ->]|Hd]; done.
Qed.

Lemma inv_expand st d u q :
  inv (λ _ _, False) st → heappop (pq st) = Some ((d, u), q) →
  u ∉ visitados st → u ≠ destino →
  expanding u d (neighbors G u)
    (Locals (distancias st) (predecessores st) ({[u]} ∪ visitados st) q).
Proof.
  intros [Ha Hb Hc Hd He Hf Hg Hh Hi Hj] Epop Hu Hdest.
  assert (∀ k n, (k, n) ∈ q → (k, n) ∈ pq st) as Hsub.
  { intros k n Hin. apply (heappop_elem _ _ _ (k, n) Epop). by right. }
  assert ((d, u) ∈ pq st) as Hdu.
  { apply (heappop_elem _ _ _ (d, u) Epop). by left. }
  assert (∀ k n, (k, n) ∈ pq st → d ≤ k) as Hleast.
  { intros k n Hin. apply (lex_le_fst (d, u) (k, n)).
    eapply heappop_least; eauto. }
  assert (distancias st !! u = Some (Fin d)) as Hlab.
  { destruct (Hc d u Hdu) as (c & Hcu & Hle).
    pose proof (Hleast _ _ (Hd u c Hcu Hu)). assert (c = d) as -> by lia. done. }
  assert (size ({[u]} ∪ visitados st) = S (size (visitados st))) as Hsize.
  { rewrite size_union by set_solver. by rewrite size_singleton. }
  split; [|simpl; repeat split].
  - split; simpl; eauto.
    + intros n c Hn Hnv. apply not_elem_of_union in Hnv as [Hnu Hnv].
      specialize (Hd n c Hn Hnv).
      apply (heappop_elem _ _ _ (c, n) Epop) in Hd as [[= -> ->]|Hd]; [|done].
      set_solver.
    + intros x c k n Hx Hcx Hin. apply elem_of_union in Hx as [Hx|Hx].
      * apply elem_of_singleton in Hx as ->. rewrite Hlab in Hcx.
        injection Hcx as <-. eauto.
      * eauto.
    + intros x y w cx Hx Hw Hcx Htodo. apply elem_of_union in Hx as [Hx|Hx].
      * apply elem_of_singleton in Hx as ->. exfalso. apply Htodo.
        split; [done|]. apply neighbors_edge. eapply weight_edge; eauto.
      * apply (Hf x y w cx); tauto.
    + intros v x Hvx. destruct (Hg v x Hvx) as [Hx Hrest]. split; [set_solver|done].
    + intros x Hx. apply elem_of_union in Hx as [Hx|Hx].
      * apply elem_of_singleton in Hx as ->.
        destruct (Hh u d Hlab) as [->|[p Hp]].
        -- exists [origem], 0. destruct Ha as [Ha1 Ha2].
           rewrite Ha1 in Hlab. injection Hlab as <-.
           split; [by constructor|]. split; [done|].
           split; [apply Forall_singleton; set_solver|].
           split; [apply NoDup_singleton | simpl; lia].
        -- destruct (Hg u p Hp) as (Hpv & cp & w & Hcp & Hw & Hcu).
           destruct (Hi p Hpv) as (l & c & Ht & Hc' & Hall & Hnd & Hlen).
           rewrite Hcp in Hc'. injection Hc' as <-.
           exists (u :: l), (cp + w).
           split; [econstructor; eauto|]. split; [done|]. split; [|split].
           ++ apply Forall_cons. split; [set_solver|].
              eapply Forall_impl; [exact Hall|]. set_solver.
           ++ apply NoDup_cons. split; [|done]. intros Hin.
              rewrite Forall_forall in Hall. by apply Hu, Hall.
           ++ simpl. lia.
      * destruct (Hi x Hx) as (l & c & Ht & Hc' & Hall & Hnd & Hlen).
        exists l, c. split; [done|]. split; [done|]. split; [|split; [done|lia]].
        eapply Forall_impl; [exact Hall|]. set_solver.
    + set_solver.
  - set_solver.
  - done.
  - intros x c Hx Hcx. apply elem_of_union in Hx as [Hx|Hx].
    + apply elem_of_singleton in Hx as ->. rewrite Hlab in Hcx.
      injection Hcx as <-. lia.
    + eapply He; eauto.
  - eauto.
Qed.

Lemma expanding_done u d st : expanding u d [] st → inv (λ _ _, False) st.
Proof.
  intros ([Ha Hb Hc Hd He Hf Hg Hh Hi Hj] & _). split; try done.
  intros x y w cx Hx Hw Hcx _. apply (Hf x y w cx); try done.
  intros [_ Hin]. inversion Hin.
Qed.

Lemma while_pq_inv fuel : ∀ st st' G',
  inv (λ _ _, False) st → while_pq fuel destino st G = (Ok st', G') →
  settled st'.
Proof.
  induction fuel as [|fuel IH]; intros st st' G' Hinv; [done|].
  simpl. destruct (heappop (pq st)) as [[[d u] q]|] eqn:Epop.
  2:{ intros [= <- <-]. apply heappop_None in Epop.
      destruct st as [ds ps vs qs]. simpl in Epop. subst qs.
      apply (inv_settled _ _ [] Hinv). intros c Hc.
      destruct (inv_lower_bound _ _ _ Hinv Hc)
        as [(Hv & _)|(y & cy & Hy & Hcy & _)].
      - by destruct (inv_destino _ _ Hinv).
      - pose proof (inv_pq_in _ _ Hinv y cy Hcy Hy) as Hin. inversion Hin. }
  case_bool_decide as Hdest.
  { intros [= <- <-]. subst u. apply (inv_settled _ _ q Hinv). intros c Hc.
    assert ((d, destino) ∈ pq st) as Hdu.
    { apply (heappop_elem _ _ _ (d, destino) Epop). by left. }
    destruct (inv_pq_le _ _ Hinv d destino Hdu) as (cd & Hcd & Hle).
    exists cd. split; [done|].
    destruct (inv_lower_bound _ _ _ Hinv Hc)
      as [(Hv & _)|(y & cy & Hy & Hcy & Hle')].
    - by destruct (inv_destino _ _ Hinv).
    - pose proof (inv_pq_in _ _ Hinv y cy Hcy Hy) as Hin.
      pose proof (lex_le_fst _ _ (heappop_least _ _ _ _ Epop Hin)). simpl in *.
      lia. }
  case_bool_decide as Hvis.
  { destruct (inv_pop _ _ _ _ Hinv Epop) as [Hinv'|?]; [|done].
    by apply IH. }
  unfold bind. rewrite G_neighbors_eq.
  destruct (assoc u G) as [a|]; [|done].
  destruct (for_vizinho u d (neighbors G u) _ G) as [[st3|e|] G3] eqn:Efor;
    try done.
  pose proof (reads_run _ _ _ _ (reads_for_vizinho u d _ _) Efor) as ->.
  apply IH. eapply expanding_done, for_vizinho_inv; [|exact Efor].
  by apply inv_expand.
Qed.
End Optimal.

Lemma start_inv G origem destino :
  origem ∈ G.*1 → inv G origem destino (λ _ _, False) (start G origem).
Proof.
  intros Ho.
  assert (∀ v c, distancias (start G origem) !! v = Some (Fin c) →
                 v = origem ∧ c = 0) as Hlab.
  { intros v c. simpl. rewrite lookup_insert. case_decide; subst.
    - by intros [= <-].
    - rewrite dict_from_lookup. by case_bool_decide. }
  split; simpl.
  - rewrite lookup_insert_eq, dict_from_lookup, bool_decide_eq_true_2; done.
  - intros v c Hv. destruct (Hlab v c Hv) as [_ ->]. done.
  - intros k n. rewrite list_elem_of_singleton. intros [= -> ->].
    exists 0. by rewrite lookup_insert_eq.
  - intros n c Hn _. destruct (Hlab n c Hn) as [-> ->]. by left.
  - set_solver.
  - set_solver.
  - intros v u. rewrite dict_from_lookup. by case_bool_decide.
  - intros v c Hv. left. by destruct (Hlab v c Hv).
  - set_solver.
  - set_solver.
Qed.

Lemma relax_visitados u d v st st' G G' :
  relax u d v st G = (Ok st', G') → visitados st' = visitados st.
Proof.
  rewrite relax_eq. destruct (weight G u v); [|by intros [= <- _]].
  destruct (distancias st !! v) as [dv|]; [|done].
  destruct (lt_num _ dv); by intros [= <- _].
Qed.

Lemma for_vizinho_visitados u d nbrs : ∀ st st' G G',
  for_vizinho u d nbrs st G = (Ok st', G') → visitados st' = visitados st.
Proof.
  induction nbrs as [|v nbrs IH]; intros st st' G G'.
  - by intros [= <- _].
  - rewrite for_vizinho_cons.
    destruct (relax u d v st G) as [[st1|e|] G1] eqn:E; try done.
    intros H. rewrite (IH _ _ _ _ H). eapply relax_visitados; eauto.
Qed.

(** Every visited node has cost a round of the loop, and leaving the loop
    costs one more. *)
Lemma while_pq_visited_fuel destino fuel : ∀ st st' G G',
  while_pq fuel destino st G = (Ok st', G') →
  (size (visitados st') + 1 ≤ fuel + size (visitados st))%nat.
Proof.
  induction fuel as [|fuel IH]; intros st st' G G'; [done|].
  simpl. destruct (heappop (pq st)) as [[[d u] q]|].
  2:{ intros [= <- _]. lia. }
  case_bool_decide; [intros [= <- _]; simpl; lia|].
  case_bool_decide.
  { intros H'. apply IH in H'. simpl in H'. lia. }
  unfold bind. destruct (G_neighbors u G) as [[nbrs|e|] G1]; try done.
  destruct (for_vizinho u d nbrs _ G1) as [[st3|e|] G3] eqn:Efor; try done.
  intros H'. apply IH in H'.
  rewrite (for_vizinho_visitados _ _ _ _ _ _ _ Efor) in H'. simpl in H'.
  assert (size ({[u]} ∪ visitados st) = S (size (visitados st))) as Hsize.
  { rewrite size_union by set_solver. by rewrite size_singleton. }
  lia.
Qed.

Lemma nonneg_weight G u v w : nonneg G → weight G u v = Some w → 0 ≤ w.
Proof.
  unfold nonneg, nonnegb. rewrite forallb_forall. intros Hnn Hw.
  apply weight_lengths in Hw. unfold lengths, edge in Hw.
  destruct (assoc u G) as [a|] eqn:Eu; [|inversion Hw].
  destruct (assoc v a) as [dat|] eqn:Ev; [|inversion Hw].
  apply assoc_Some_elem, list_elem_of_In in Eu, Ev.
  specialize (Hnn _ Eu). simpl in Hnn. rewrite forallb_forall in Hnn.
  specialize (Hnn _ Ev). simpl in Hnn. rewrite forallb_forall in Hnn.
  apply list_elem_of_In in Hw. specialize (Hnn _ Hw).
  by apply bool_decide_eq_true in Hnn.
Qed.

Lemma first_minimal_weight G u v w :
  first_minimal G → w ∈ lengths G u v →
  ∃ w0, weight G u v = Some w0 ∧ w0 ≤ w.
Proof.
  unfold first_minimal, first_minimalb. rewrite forallb_forall. intros Hfm Hw.
  unfold weight. unfold lengths in Hw. unfold edge in *.
  destruct (assoc u G) as [a|] eqn:Eu; [|inversion Hw].
  destruct (assoc v a) as [dat|] eqn:Ev; [|inversion Hw].
  apply assoc_Some_elem, list_elem_of_In in Eu, Ev.
  specialize (Hfm _ Eu). simpl in Hfm. rewrite forallb_forall in Hfm.
  specialize (Hfm _ Ev). simpl in Hfm. unfold data_first_minimal in Hfm.
  destruct (data_weight dat) as [w0|].
  - exists w0. split; [done|]. rewrite forallb_forall in Hfm.
    apply list_elem_of_In in Hw. specialize (Hfm _ Hw).
    by apply bool_decide_eq_true in Hfm.
  - apply bool_decide_eq_true in Hfm. rewrite Hfm in Hw. inversion Hw.
Qed.

Lemma first_minimal_route G o v c :
  first_minimal G → nonneg G → route G o v c →
  ∃ c0, route0 G o v c0 ∧ c0 ≤ c.
Proof.
  intros Hfm Hnn. induction 1 as [|v x c w _ (c0 & Hr & Hle) Hw].
  - exists 0. split; [by constructor|lia].
  - destruct (first_minimal_weight _ _ _ _ Hfm Hw) as (w0 & Hw0 & Hle0).
    exists (c0 + w0). split; [econstructor; eauto|lia].
Qed.

Lemma foldr_min_spec x l :
  foldr Z.min x l ∈ x :: l ∧ ∀ y, y ∈ x :: l → foldr Z.min x l ≤ y.
Proof.
  induction l as [|a l [IH1 IH2]]; simpl.
  - split; [by left|]. intros y Hy. apply list_elem_of_singleton in Hy. lia.
  - split.
    + destruct (Z.min_spec a (foldr Z.min x l)) as [[_ ->]|[_ ->]];
        [set_solver|]. set_solver.
    + intros y Hy. assert (y = a ∨ y ∈ x :: l) as [->|Hy'] by set_solver; [lia|].
      specialize (IH2 y Hy'). lia.
Qed.

Lemma min_list_least x l :
  x ∈ l → (∀ y, y ∈ l → x ≤ y) → min_list l = Some x.
Proof.
  destruct l as [|a l]; [intros H; inversion H|]. intros Hx Hle. simpl.
  destruct (foldr_min_spec a l) as [Hin Hmin].
  f_equal. specialize (Hmin x Hx). specialize (Hle _ Hin). lia.
Qed.

Lemma first_minimal_min_parallel G u v w :
  first_minimal G → weight G u v = Some w → min_parallel G u v = Some w.
Proof.
  intros Hfm Hw. apply min_list_least; [by apply weight_lengths|].
  intros y Hy. destruct (first_minimal_weight _ _ _ _ Hfm Hy) as (w0 & Hw0 & Hle).
  congruence.
Qed.

Lemma sum_along_min_parallel G p c :
  first_minimal G → sum_along (weight G) p = Some c →
  sum_along (min_parallel G) p = Some c.
Proof.
  intros Hfm. revert c. induction p as [|a p IH]; intros c; [done|].
  destruct p as [|b p]; [done|].
  change (sum_along (weight G) (a :: b :: p)) with
    (match weight G a b, sum_along (weight G) (b :: p) with
     | Some w, Some c => Some (w + c) | _, _ => None end).
  change (sum_along (min_parallel G) (a :: b :: p)) with
    (match min_parallel G a b, sum_along (min_parallel G) (b :: p) with
     | Some w, Some c => Some (w + c) | _, _ => None end).
  destruct (weight G a b) as [w|] eqn:Hw; [|done].
  destruct (sum_along (weight G) (b :: p)) as [c'|]; [|done].
  intros [= <-]. rewrite (first_minimal_min_parallel _ _ _ _ Hfm Hw).
  by rewrite (IH c' eq_refl).
Qed.

Lemma trail_nodes G pred o v l c :
  wf_graph G → o ∈ G.*1 → trail G pred o v l c → Forall (λ x, x ∈ G.*1) l.
Proof.
  intros Hwf Ho. induction 1 as [|v u l c w Hv Hw _ IH].
  - by apply Forall_singleton.
  - apply Forall_cons. split; [|done].
    destruct (weight_edge _ _ _ _ Hw) as [dat He]. eapply wf_edge_node; eauto.
Qed.

(** A returned result is the no-path result, or the walk back along a
    trail of the state the loop was left in. *)
Lemma dijkstra_ok_trail G origem destino fuel caminho custo G' :
  nonneg G → origem ∈ G.*1 →
  dijkstra fuel origem destino G = (Ok (caminho, custo), G') →
  (caminho = [] ∧ custo = Inf ∧ ∀ c, ¬ route0 G origem destino c) ∨
  (∃ st l c, settled G origem destino st ∧
             trail G (predecessores st) origem destino l c ∧
             NoDup l ∧ caminho = reverse l ∧ custo = Fin c ∧
             distancias st !! destino = Some (Fin c)).
Proof.
  intros Hnn Ho. rewrite dijkstra_eq.
  destruct (while_pq fuel destino _ G) as [[st|e|] G1] eqn:Ew; try done.
  pose proof (reads_run _ _ _ _ (reads_while_pq _ _ _) Ew) as ->.
  pose proof (while_pq_inv G origem destino (λ u v w, nonneg_weight G u v w Hnn)
                fuel _ _ _ (start_inv G origem destino Ho) Ew) as Hset.
  pose proof Hset as ([Ho1 Ho2] & Hpar & Hlab & Hopt & Hdv & _).
  destruct (predecessores st !! destino) as [p|] eqn:Ep; [|done].
  destruct (bool_decide (p = None) && bool_decide (destino ≠ origem)) eqn:Hc.
  { intros [= <- <- <-]. left. repeat split; try done. intros c Hr.
    apply andb_true_iff in Hc as [Hp Hne].
    apply bool_decide_eq_true in Hp, Hne. subst p.
    destruct (Hopt c Hr) as (dd & Hdd & _).
    destruct (Hlab _ _ Hdd) as [?|[u Hu]]; [done|congruence]. }
  assert (∃ l c, trail G (predecessores st) origem destino l c ∧ NoDup l ∧
                 distancias st !! destino = Some (Fin c))
    as (l & c & Ht & Hnd & Hdc).
  { destruct p as [u|].
    - destruct (Hpar _ _ Ep) as (l & c & w & Ht & Hw & Hd & Hall & Hnd & _).
      exists (destino :: l), (c + w). split; [econstructor; eauto|].
      split; [|done]. apply NoDup_cons. split; [|done].
      intros Hin. rewrite Forall_forall in Hall. by apply Hdv, Hall.
    - apply andb_false_iff in Hc as [Hc|Hc]; apply bool_decide_eq_false in Hc;
        [done|].
      assert (destino = origem) as -> by (destruct (decide (destino = origem)); done).
      exists [origem], 0. split; [by constructor|]. split; [apply NoDup_singleton|done]. }
  destruct (walk_back fuel _ _ _ G) as [[cam|e|] G2] eqn:Eb; try done.
  rewrite Hdc. intros [= <- <- <-].
  pose proof (trail_walk_back _ _ _ _ _ _ (Nat.max fuel (length l)) [] Ht
                (Nat.le_max_r _ _)) as Eb'.
  rewrite (walk_back_fuel_mono _ _ _ _ _ _ _ _ Eb (Nat.le_max_l _ _)) in Eb'.
  injection Eb' as -> _. simpl.
  right. exists st, l, c. done.
Qed.

(** What a returned result is, on a graph of non-negative lengths. *)
Lemma dijkstra_result G origem destino fuel caminho custo G' :
  nonneg G → origem ∈ G.*1 →
  dijkstra fuel origem destino G = (Ok (caminho, custo), G') →
  (caminho = [] ∧ custo = Inf ∧ ∀ c, ¬ route0 G origem destino c) ∨
  (∃ c, custo = Fin c ∧
        head caminho = Some origem ∧ last caminho = Some destino ∧
        is_walk G caminho ∧ sum_along (weight G) caminho = Some c ∧
        route0 G origem destino c ∧
        ∀ c', route0 G origem destino c' → c ≤ c').
Proof.
  intros Hnn Ho E.
  destruct (dijkstra_ok_trail _ _ _ _ _ _ _ Hnn Ho E)
    as [?|(st & l & c & (_ & _ & _ & Hopt & _) & Ht & _ & -> & -> & Hdc)];
    [by left|right].
  destruct (trail_path _ _ _ _ _ _ Ht) as (Hh & Hl & Hwk & Hs).
  exists c. repeat split; try done.
  - eapply trail_route0; eauto.
  - intros c' Hr. destruct (Hopt c' Hr) as (dd & Hdd & Hle). congruence.
Qed.

(** With enough fuel a reachable destination gets its result. *)
Lemma dijkstra_returns G origem destino fuel c :
  wf_graph G → nonneg G → origem ∈ G.*1 → destino ∈ G.*1 →
  route0 G origem destino c →
  (total_degree G + 2 ≤ fuel)%nat →
  ∃ caminho custo, dijkstra fuel origem destino G = (Ok (caminho, custo), G).
Proof.
  intros Hwf Hnn Ho Hd Hr Hfuel. rewrite dijkstra_eq.
  destruct (while_pq_start G origem Hwf destino fuel Ho Hfuel) as (st & Ew & Hs).
  rewrite Ew.
  pose proof (while_pq_inv G origem destino (λ u v w, nonneg_weight G u v w Hnn)
                fuel _ _ _ (start_inv G origem destino Ho) Ew)
    as ([Ho1 Ho2] & Hpar & Hlab & Hopt & Hdv & _).
  pose proof (while_pq_visited_fuel _ _ _ _ _ _ Ew) as Hvf.
  change (visitados (start G origem)) with (∅ : gset Z) in Hvf.
  rewrite size_empty in Hvf.
  destruct (Hopt c Hr) as (dd & Hdd & _).
  assert (∃ l c, trail G (predecessores st) origem destino l c ∧
                 (length l ≤ fuel)%nat) as (l & c' & Ht & Hlen).
  { destruct (Hlab _ _ Hdd) as [->|[u Hu]].
    - exists [origem], 0. split; [by constructor|simpl; lia].
    - destruct (Hpar _ _ Hu) as (l & c' & w & Ht & Hw & _ & _ & _ & Hlen).
      exists (destino :: l), (c' + w). split; [econstructor; eauto|simpl; lia]. }
  destruct (proj2 (safe_pred _ _ _ Hs destino) Hd) as [p Ep]. rewrite Ep.
  destruct (bool_decide (p = None) && bool_decide (destino ≠ origem)); [eauto|].
  rewrite (trail_walk_back _ _ _ _ _ _ fuel [] Ht Hlen), Hdd. eauto.
Qed.

(** ** A result always, and nodes of the graph only *)

Lemma dijkstra_total_aux G origem destino fuel :
  wf_graph G → nonneg G → origem ∈ G.*1 → destino ∈ G.*1 →
  (total_degree G + 2 ≤ fuel)%nat →
  ∃ caminho custo, dijkstra fuel origem destino G = (Ok (caminho, custo), G).
Proof.
  intros Hwf Hnn Ho Hd Hfuel. rewrite dijkstra_eq.
  destruct (while_pq_start G origem Hwf destino fuel Ho Hfuel) as (st & Ew & Hs).
  rewrite Ew.
  pose proof (while_pq_inv G origem destino (λ u v w, nonneg_weight G u v w Hnn)
                fuel _ _ _ (start_inv G origem destino Ho) Ew)
    as ([Ho1 Ho2] & Hpar & Hlab & Hopt & Hdv).
  pose proof (while_pq_visited_fuel _ _ _ _ _ _ Ew) as Hvf.
  change (visitados (start G origem)) with (∅ : gset Z) in Hvf.
  rewrite size_empty in Hvf.
  destruct (proj2 (safe_pred _ _ _ Hs destino) Hd) as [p Ep]. rewrite Ep.
  destruct (bool_decide (p = None) && bool_decide (destino ≠ origem)) eqn:Hc;
    [eauto|].
  assert (∃ l c, trail G (predecessores st) origem destino l c ∧
                 (length l ≤ fuel)%nat ∧
                 distancias st !! destino = Some (Fin c)) as (l & c & Ht & Hlen & Hdc).
  { destruct p as [u|].
    - destruct (Hpar _ _ Ep) as (l & c & w & Ht & Hw & Hdd & _ & _ & Hlen).
      exists (destino :: l), (c + w).
      split; [econstructor; eauto|]. split; [simpl; lia|done].
    - apply andb_false_iff in Hc as [Hc|Hc]; apply bool_decide_eq_false in Hc;
        [done|].
      assert (destino = origem) as -> by (destruct (decide (destino = origem)); done).
      exists [origem], 0. split; [by constructor|]. split; [simpl; lia|done]. }
  rewrite (trail_walk_back _ _ _ _ _ _ fuel [] Ht Hlen), Hdc. eauto.
Qed.

Lemma no_parallel_first_minimal G : no_parallel G → first_minimal G.
Proof.
  unfold no_parallel, no_parallelb, first_minimal, first_minimalb.
  rewrite !forallb_forall. intros H ua Hua. specialize (H ua Hua).
  rewrite forallb_forall in H. rewrite forallb_forall. intros vd Hvd.
  specialize (H vd Hvd). destruct vd as [v [keys|len]]; simpl in *.
  - destruct keys as [|[k l] [|? ?]]; try done.
    apply bool_decide_eq_true in H as ->.
    unfold data_first_minimal, data_weight. simpl.
    destruct l as [w|]; simpl; [|done].
    rewrite andb_true_r. apply bool_decide_eq_true. lia.
  - unfold data_first_minimal, data_weight. simpl.
    destruct len as [w|]; simpl; [|done].
    rewrite andb_true_r. apply bool_decide_eq_true. lia.
Qed.

Lemma walk_back_nodes G origem st fuel : ∀ n caminho cam G',
  safe G origem st → (∀ x, n = Some x → x ∈ G.*1) →
  Forall (λ x, x ∈ G.*1) caminho →
  walk_back fuel (predecessores st) n caminho G = (Ok cam, G') →
  Forall (λ x, x ∈ G.*1) cam.
Proof.
  induction fuel as [|fuel IH]; intros [n|] caminho cam G' Hs Hn Hall; simpl;
    try done; try (by intros [= <- _]).
  unfold bind, dict_get.
  destruct (predecessores st !! n) as [p|] eqn:Ep; [|done]. simpl.
  apply IH; [done| |].
  - intros x ->. by destruct (safe_parent _ _ _ Hs _ _ Ep).
  - apply Forall_app. split; [done|]. apply Forall_singleton. by apply Hn.
Qed.

(** Whatever the lengths, a path returned holds nodes of the graph only. *)
Lemma dijkstra_ok_nodes G origem destino fuel caminho custo G' :
  wf_graph G →
  dijkstra fuel origem destino G = (Ok (caminho, custo), G') →
  Forall (λ x, x ∈ G.*1) caminho.
Proof.
  intros Hwf. rewrite dijkstra_eq.
  destruct (decide (origem ∈ G.*1)) as [Ho|Ho].
  - destruct (while_pq_safe_or G origem Hwf destino fuel (start G origem)
                (start_safe G origem Ho)) as [(st & -> & Hs)|[-> _]]; [|done].
    destruct (predecessores st !! destino) as [p|] eqn:Ep; [|done].
    assert (destino ∈ G.*1) as Hd by (apply (safe_pred _ _ _ Hs); eauto).
    destruct (bool_decide (p = None) && bool_decide (destino ≠ origem)).
    { by intros [= <- _ _]. }
    destruct (walk_back fuel _ _ _ G) as [[cam|e|] G2] eqn:Eb; try done.
    destruct (distancias st !! destino); [|done]. intros [= <- _ _].
    apply Forall_reverse.
    eapply (walk_back_nodes G origem st fuel (Some destino) []); eauto.
    by intros x [= <-].
  - destruct fuel as [|fuel]; [done|]. simpl.
    case_bool_decide as Hod.
    + unfold ret. simpl. rewrite dict_from_lookup, bool_decide_eq_false_2; [done|by subst].
    + rewrite (bool_decide_eq_false_2 (origem ∈ (∅ : gset Z))) by set_solver.
      unfold bind. rewrite G_neighbors_eq.
      apply assoc_None in Ho. by rewrite Ho.
Qed.

(** ** The same graph in another order, and readable paths *)

Lemma sublisted_node G G' n : sublisted G G' = true → n ∈ G.*1 → n ∈ G'.*1.
Proof.
  unfold sublisted. rewrite forallb_forall. intros H Hn.
  apply list_elem_of_fmap in Hn as ([u a] & -> & Hua).
  apply list_elem_of_In in Hua. specialize (H _ Hua). simpl in *.
  apply assoc_is_Some. destruct (assoc u G'); [eauto|done].
Qed.

Lemma sublisted_edge G G' u v d :
  sublisted G G' = true → edge G u v = Some d → edge G' u v = Some d.
Proof.
  unfold sublisted, edge. rewrite forallb_forall. intros H.
  destruct (assoc u G) as [a|] eqn:Ea; [|done]. intros Ev.
  apply assoc_Some_elem, list_elem_of_In in Ea. specialize (H _ Ea). simpl in H.
  destruct (assoc u G') as [a'|]; [|done].
  rewrite forallb_forall in H.
  apply assoc_Some_elem, list_elem_of_In in Ev. specialize (H _ Ev).
  by apply bool_decide_eq_true in H.
Qed.

Lemma same_graphb_spec G G' : same_graphb G G' = true → same_graph G G'.
Proof.
  unfold same_graphb. rewrite andb_true_iff. intros [H1 H2]. split.
  - intros n. split; by apply sublisted_node.
  - intros u v. destruct (edge G u v) as [d|] eqn:E.
    + symmetry. by apply (sublisted_edge G G').
    + destruct (edge G' u v) as [d'|] eqn:E'; [|done].
      apply (sublisted_edge G' G) in E'; [congruence|done].
Qed.

Lemma same_graph_sym G G' : same_graph G G' → same_graph G' G.
Proof. intros [H1 H2]. split; [intros n; by rewrite H1 | intros u v; by rewrite H2]. Qed.

Lemma same_graph_route0 G G' o v c :
  same_graph G G' → route0 G o v c → route0 G' o v c.
Proof.
  intros [Hn He]. induction 1 as [Ho|v x c w _ IH Hw].
  - apply route0_here. by apply Hn.
  - apply (route0_step _ _ v); [done|]. unfold weight in *. by rewrite <- He.
Qed.

Lemma route0_nonneg G o v c : nonneg G → route0 G o v c → 0 ≤ c.
Proof.
  intros Hnn. induction 1 as [|v x c w _ IH Hw]; [lia|].
  pose proof (nonneg_weight G v x w Hnn Hw). lia.
Qed.

Lemma sum_along_readable G p c :
  sum_along (weight G) p = Some c →
  Forall (λ ab, is_Some (weight G ab.1 ab.2)) (zip p (tail p)).
Proof.
  revert c. induction p as [|u p IH]; intros c; [done|].
  destruct p as [|v p]; [done|].
  change (sum_along (weight G) (u :: v :: p))
    with (match weight G u v, sum_along (weight G) (v :: p) with
          | Some w, Some c => Some (w + c)
          | _, _ => None
          end).
  change (zip (u :: v :: p) (tail (u :: v :: p)))
    with ((u, v) :: zip (v :: p) (tail (v :: p))).
  destruct (weight G u v) as [w|] eqn:Ew; [|done].
  destruct (sum_along (weight G) (v :: p)) as [c'|] eqn:Es; [|done].
  intros _. constructor; [simpl; eauto|]. by apply (IH c').
Qed.

(** * The claims of the specification *)

(** ** Origin equal to destination *)

(** C3.  For every graph [G] and every node [n] of [G],
    [dijkstra(G, n, n)] returns the path [[n]] with cost 0. *)
Theorem dijkstra_same_node G n fuel :
  n ∈ G.*1 → (1 ≤ fuel)%nat →
  dijkstra fuel n n G = (Ok ([n], Fin 0), G).
Proof.
  intros Hn Hfuel. destruct fuel as [|fuel]; [lia|].
  rewrite dijkstra_eq. simpl.
  rewrite bool_decide_eq_true_2 by done. unfold ret. simpl.
  rewrite dict_from_lookup, bool_decide_eq_true_2 by done.
  rewrite (bool_decide_eq_false_2 (n ≠ n)) by auto. simpl.
  unfold bind, dict_get.
  rewrite dict_from_lookup, bool_decide_eq_true_2 by done. simpl.
  destruct fuel; simpl; by rewrite lookup_insert_eq.
Qed.

Lemma dijkstra_same_node_witness :
  dijkstra 1 1 1 G_abcd = (Ok ([1], Fin 0), G_abcd).
Proof. apply dijkstra_same_node; [compute_done | lia]. Defined.

(** ** Unreachable destination *)

(** C4.  For every graph and every origin and destination both in it,
    the destination distinct from the origin and not reachable from it,
    [dijkstra] returns the empty path and the cost +infinity, as a
    result and not as an exception. *)
Theorem dijkstra_unreachable G origem destino fuel :
  wf_graph G → origem ∈ G.*1 → destino ∈ G.*1 → destino ≠ origem →
  ¬ connected G origem destino →
  (total_degree G + 2 ≤ fuel)%nat →
  dijkstra fuel origem destino G = (Ok ([], Inf), G).
Proof.
  intros Hwf Ho Hd Hne Hnc Hfuel. rewrite dijkstra_eq.
  destruct (while_pq_start G origem Hwf destino fuel Ho Hfuel) as (st & -> & Hs).
  destruct (proj2 (safe_pred _ _ _ Hs destino) Hd) as [p Ep]. rewrite Ep.
  destruct p as [u|].
  - destruct (safe_parent _ _ _ Hs _ _ Ep) as [_ [c Hc]].
    exfalso. apply Hnc. eapply route_connected, route0_route, Hc.
  - rewrite !bool_decide_eq_true_2 by done. reflexivity.
Qed.

Lemma G_abcd_component x : connected G_abcd 1 x → x ∈ [1; 2; 3; 4].
Proof.
  induction 1 as [|v x _ IH Hx]; [set_solver|].
  assert (v = 1 ∨ v = 2 ∨ v = 3 ∨ v = 4) as Hv by set_solver.
  destruct Hv as [-> | [-> | [-> | ->]]]; vm_compute in Hx; set_solver.
Qed.

Lemma dijkstra_unreachable_witness :
  dijkstra 20 1 5 G_abcd = (Ok ([], Inf), G_abcd).
Proof.
  apply dijkstra_unreachable.
  - vm_compute. reflexivity.
  - compute_done.
  - compute_done.
  - lia.
  - intros H. apply G_abcd_component in H. revert H. compute_done.
  - vm_compute. lia.
Defined.

(** ** Unknown nodes *)

(** C5, as stated, fails: no one error is raised for every unknown node.
    An unknown destination ends in [KeyError], an unknown origin in
    [NetworkXError]. *)
Lemma unknown_node_two_errors :
  ¬ ∃ e : exn, ∀ G origem destino fuel,
      wf_graph G → origem ∉ G.*1 ∨ destino ∉ G.*1 →
      (total_degree G + 2 ≤ fuel)%nat →
      (dijkstra fuel origem destino G).1 = Raise e.
Proof.
  intros [e He].
  assert (wf_graph G_simple) as Hwf by (vm_compute; reflexivity).
  assert (total_degree G_simple + 2 ≤ 20)%nat as Hfuel by (vm_compute; lia).
  pose proof (He G_simple 1 9 20%nat Hwf) as H1.
  pose proof (He G_simple 9 1 20%nat Hwf) as H2.
  assert ((9 : Z) ∉ G_simple.*1) as H9 by compute_done.
  specialize (H1 (or_intror H9) Hfuel). specialize (H2 (or_introl H9) Hfuel).
  vm_compute in H1, H2. congruence.
Qed.

(** C5, amended.  For every graph, if the origin or the destination is not
    a node of it, [dijkstra] returns no result and raises an exception:
    [NetworkXError] when the origin is unknown and differs from the
    destination, [KeyError] otherwise. *)
Theorem dijkstra_unknown_node G origem destino fuel :
  wf_graph G → origem ∉ G.*1 ∨ destino ∉ G.*1 →
  (total_degree G + 2 ≤ fuel)%nat →
  dijkstra fuel origem destino G = (Raise (unknown_node_error G origem destino), G).
Proof.
  intros Hwf Hunk Hfuel. rewrite dijkstra_eq. unfold unknown_node_error.
  destruct (decide (origem ∈ G.*1)) as [Ho|Ho].
  - destruct Hunk as [?|Hd]; [done|].
    rewrite (bool_decide_eq_true_2 (origem ∈ G.*1 ∨ origem = destino)) by auto.
    destruct (while_pq_start G origem Hwf destino fuel Ho Hfuel) as (st & -> & Hs).
    destruct (predecessores st !! destino) as [p|] eqn:Ep; [|done].
    exfalso. apply Hd. apply (safe_pred _ _ _ Hs). eauto.
  - destruct fuel as [|fuel]; [lia|]. simpl.
    case_bool_decide as Hod.
    + rewrite (bool_decide_eq_true_2 (origem ∈ G.*1 ∨ origem = destino)) by auto.
      unfold ret. simpl.
      rewrite dict_from_lookup, bool_decide_eq_false_2; [done | by subst].
    + rewrite (bool_decide_eq_false_2 (origem ∈ (∅ : gset Z))) by set_solver.
      rewrite (bool_decide_eq_false_2 (origem ∈ G.*1 ∨ origem = destino))
        by (intros [?|?]; done).
      unfold bind. rewrite G_neighbors_eq.
      apply assoc_None in Ho. by rewrite Ho.
Qed.

Lemma dijkstra_unknown_node_witness :
  dijkstra 20 9 1 G_simple = (Raise NetworkXError, G_simple).
Proof.
  apply (dijkstra_unknown_node G_simple 9 1 20).
  - vm_compute. reflexivity.
  - left. compute_done.
  - vm_compute. lia.
Defined.

(** ** Edge lengths are not validated *)




(** ** The graph is only read *)

(** C9.  For every graph, origin and destination, a call to [dijkstra]
    leaves the graph as it was: nodes, edges and lengths are the same
    after the call as before it. *)
Theorem dijkstra_leaves_graph fuel origem destino G :
  (dijkstra fuel origem destino G).2 = G.
Proof. apply reads_dijkstra. Qed.

(** ** The cost does not depend on the call *)

(** C8.  For every graph, origin and destination, a second call to
    [dijkstra] with the same arguments, made on the graph as the first
    call left it, gives what the first call gave.  And the cost belongs
    to the graph, not to the way it is listed: on a graph of non-negative
    lengths given as two adjacency structures, nodes and neighbours in
    whatever order, with the origin and the destination in it, both
    calls return, and they return the same cost. *)
Theorem dijkstra_same_cost G G' origem destino fuel fuel' :
  dijkstra fuel origem destino (dijkstra fuel origem destino G).2 =
    dijkstra fuel origem destino G ∧
  (wf_graph G → wf_graph G' → nonneg G → nonneg G' → same_graph G G' →
   origem ∈ G.*1 → destino ∈ G.*1 →
   (total_degree G + 2 ≤ fuel)%nat → (total_degree G' + 2 ≤ fuel')%nat →
   ∃ caminho caminho' custo,
     dijkstra fuel origem destino G = (Ok (caminho, custo), G) ∧
     dijkstra fuel' origem destino G' = (Ok (caminho', custo), G')).
Proof.
  split; [by rewrite reads_dijkstra|].
  intros Hwf Hwf' Hnn Hnn' Hsame Ho Hd Hfuel Hfuel'.
  pose proof (same_graph_sym _ _ Hsame) as Hsame'.
  assert (origem ∈ G'.*1) as Ho' by by apply Hsame.
  assert (destino ∈ G'.*1) as Hd' by by apply Hsame.
  destruct (dijkstra_total_aux G origem destino fuel Hwf Hnn Ho Hd Hfuel)
    as (p & c & E).
  destruct (dijkstra_total_aux G' origem destino fuel' Hwf' Hnn' Ho' Hd' Hfuel')
    as (p' & c' & E').
  destruct (dijkstra_result _ _ _ _ _ _ _ Hnn Ho E)
    as [(_ & -> & Hno)|(z & -> & _ & _ & _ & _ & Hr & Hmin)];
  destruct (dijkstra_result _ _ _ _ _ _ _ Hnn' Ho' E')
    as [(_ & -> & Hno')|(z' & -> & _ & _ & _ & _ & Hr' & Hmin')].
  - by exists p, p', Inf.
  - destruct (Hno z'). by apply (same_graph_route0 G' G).
  - destruct (Hno' z). by apply (same_graph_route0 G G').
  - assert (z' = z) as ->; [|by exists p, p', (Fin z)].
    apply Z.le_antisymm.
    + apply Hmin'. by apply (same_graph_route0 G G').
    + apply Hmin. by apply (same_graph_route0 G' G).
Qed.

Lemma dijkstra_same_cost_witness :
  ∃ caminho caminho' custo,
    dijkstra 20 1 4 G_tie = (Ok (caminho, custo), G_tie) ∧
    dijkstra 30 1 4 G_tie_relisted = (Ok (caminho', custo), G_tie_relisted).
Proof.
  apply (proj2 (dijkstra_same_cost G_tie G_tie_relisted 1 4 20 30)).
  - vm_compute. reflexivity.
  - vm_compute. reflexivity.
  - vm_compute. reflexivity.
  - vm_compute. reflexivity.
  - apply same_graphb_spec. vm_compute. reflexivity.
  - compute_done.
  - compute_done.
  - vm_compute. lia.
  - vm_compute. lia.
Defined.

(** ** Edges without a length *)

(** C10.  When the edge between the current node and a neighbour carries
    no ['length'], neither at key 0 of a multi-edge nor on the edge data
    itself, the relaxation of that neighbour leaves the state of the
    search as it is and raises nothing, and the loop over the neighbours
    goes on as if that neighbour were not among them. *)
Theorem relax_skips_edge_without_length G u v dat dist_atual before after st :
  edge G u v = Some dat → key0_length dat = None → direct_length dat = None →
  relax u dist_atual v st G = (Ok st, G) ∧
  for_vizinho u dist_atual (before ++ v :: after) st G =
  for_vizinho u dist_atual (before ++ after) st G.
Proof.
  intros He Hk Hd.
  assert (∀ st', relax u dist_atual v st' G = (Ok st', G)) as Hskip.
  { intros st'. rewrite relax_eq. unfold weight, data_weight.
    by rewrite He, Hk, Hd. }
  split; [apply Hskip|].
  revert st. induction before as [|x before IH]; intros st.
  - simpl app. rewrite for_vizinho_cons, Hskip. reflexivity.
  - simpl app. rewrite !for_vizinho_cons.
    pose proof (reads_relax u dist_atual x st G) as Hr.
    destruct (relax u dist_atual x st G) as [[st'|e|] G']; simpl in Hr;
      subst; auto.
Qed.

Lemma relax_skips_edge_without_length_witness :
  relax 1 0 3 (start G_simple 1) G_simple = (Ok (start G_simple 1), G_simple) ∧
  for_vizinho 1 0 ([2] ++ 3 :: []) (start G_simple 1) G_simple =
  for_vizinho 1 0 ([2] ++ []) (start G_simple 1) G_simple.
Proof.
  apply (relax_skips_edge_without_length G_simple 1 3 (SimpleEdge None));
    reflexivity.
Defined.

(** ** Parallel edges: only the edge with key 0 is read *)

(** Of the parallel edges between two nodes the relaxation reads the one
    with key 0, whatever the lengths of the others: the neighbour's label
    becomes the current distance plus that length when this is less than
    the label, and stays otherwise. *)
Lemma relax_reads_key0 G no_atual vizinho keys w dist_atual st dv :
  edge G no_atual vizinho = Some (MultiEdge keys) →
  assoc 0 keys = Some (Some w) →
  distancias st !! vizinho = Some dv →
  relax no_atual dist_atual vizinho st G =
  (Ok (if lt_num (dist_atual + w) dv
       then relaxed no_atual (dist_atual + w) vizinho st else st), G).
Proof.
  intros He Hk Hdv. rewrite relax_eq. unfold weight, data_weight.
  rewrite He. simpl. rewrite Hk, Hdv. by destruct (lt_num _ dv).
Qed.

(** C2 fails on the code.  The claim: between two nodes joined by
    parallel edges, the length the relaxation uses is the least of their
    lengths, 3 for lengths 5 and 3.  On [G_par], where key 0 has length 5
    and key 1 has length 3, the least length is 3, the relaxation of 2
    through 1 reads 5, and the cost returned from 1 to 2 is 5. *)
Theorem parallel_edges_first_not_least :
  min_parallel G_par 1 2 = Some 3 ∧
  peso_of 1 2 G_par = (Ok (Some 5), G_par) ∧
  relax 1 0 2 (start G_par 1) G_par = (Ok (relaxed 1 5 2 (start G_par 1)), G_par) ∧
  dijkstra 5 1 2 G_par = (Ok ([1; 2], Fin 5), G_par).
Proof.
  split; [vm_compute; reflexivity|]. split; [vm_compute; reflexivity|].
  split; [|apply dijkstra_G_par].
  apply (relax_reads_key0 G_par 1 2 [(0, Some 5); (1, Some 3)] 5 0
           (start G_par 1) Inf); reflexivity.
Qed.

Lemma G_par_routes x c : route G_par 1 x c → 0 ≤ c ∧ (x = 2 → 3 ≤ c).
Proof.
  induction 1 as [|v x c w _ [IH1 IH2] Hw]; [lia|].
  unfold lengths, edge, G_par in Hw. simpl in Hw.
  repeat (case_bool_decide; simpl in Hw); subst; set_solver by lia.
Qed.

(** C1 fails on the code.  The claim: on a graph of non-negative lengths
    the cost returned for a reachable destination is the least sum of
    edge lengths over all routes to it.  On [G_par], of non-negative
    lengths, the least cost of a route from 1 to 2 is 3, along the edge
    with key 1, and [dijkstra] returns the cost 5. *)
Theorem parallel_edges_cost_not_minimal :
  wf_graph G_par ∧ nonneg G_par ∧ min_cost G_par 1 2 3 ∧
  dijkstra 5 1 2 G_par = (Ok ([1; 2], Fin 5), G_par).
Proof.
  split; [vm_compute; reflexivity|]. split; [vm_compute; reflexivity|].
  split; [|apply dijkstra_G_par]. split.
  - change (route G_par 1 2 (0 + 3)). apply (route_step _ _ 1); [|compute_done].
    apply route_here. compute_done.
  - intros c' Hc'. by apply (G_par_routes 2 c').
Qed.

(** C7 fails on the code.  The claim: along a returned path consecutive
    nodes are joined by an edge and the least parallel lengths sum to the
    returned cost.  On [G_par] the path returned from 1 to 2 is a walk of
    the graph and has the cost 5, and the least parallel lengths along it
    sum to 3. *)
Theorem parallel_edges_path_cost :
  dijkstra 5 1 2 G_par = (Ok ([1; 2], Fin 5), G_par) ∧
  is_walk G_par [1; 2] ∧
  sum_along (min_parallel G_par) [1; 2] = Some 3.
Proof.
  split; [apply dijkstra_G_par|]. split; [|vm_compute; reflexivity].
  simpl. split; [compute_done | done].
Qed.

(** ** Away from parallel edges the search is right *)

(** X4.  Integer lengths, which Python adds exactly.  On every graph of
    non-negative integer lengths, for a destination reachable along
    edges whose length the code reads, [dijkstra] returns the least sum,
    over the routes to the destination, of the lengths the code reads.
    It is the least cost of a route of the graph whenever every key-0
    edge is a shortest one of its parallel edges, as in a graph without
    parallel edges. *)
Theorem dijkstra_cost_minimal G origem destino fuel :
  wf_graph G → nonneg G → origem ∈ G.*1 → destino ∈ G.*1 →
  (∃ c, route0 G origem destino c) →
  (total_degree G + 2 ≤ fuel)%nat →
  ∃ caminho c,
    dijkstra fuel origem destino G = (Ok (caminho, Fin c), G) ∧
    route0 G origem destino c ∧
    (∀ c', route0 G origem destino c' → c ≤ c') ∧
    (first_minimal G → min_cost G origem destino c).
Proof.
  intros Hwf Hnn Ho Hd [c0 Hr] Hfuel.
  destruct (dijkstra_returns G origem destino fuel c0 Hwf Hnn Ho Hd Hr Hfuel)
    as (caminho & custo & E).
  destruct (dijkstra_result _ _ _ _ _ _ _ Hnn Ho E)
    as [(_ & _ & Hno)|(c & -> & _ & _ & _ & _ & Hc & Hmin)].
  { by destruct (Hno c0). }
  exists caminho, c. split; [done|]. split; [done|]. split; [done|].
  intros Hfm. split; [by apply route0_route|].
  intros c' Hc'.
  destruct (first_minimal_route _ _ _ _ Hfm Hnn Hc') as (c1 & Hc1 & Hle).
  specialize (Hmin c1 Hc1). lia.
Qed.

Lemma G_abcd_route0 : route0 G_abcd 1 4 2.
Proof.
  change (route0 G_abcd 1 4 (0 + 1 + 1)).
  apply (route0_step _ _ 2); [|reflexivity].
  apply (route0_step _ _ 1); [|reflexivity].
  apply route0_here. compute_done.
Qed.

Lemma dijkstra_cost_minimal_witness :
  ∃ caminho c,
    dijkstra 20 1 4 G_abcd = (Ok (caminho, Fin c), G_abcd) ∧
    route0 G_abcd 1 4 c ∧
    (∀ c', route0 G_abcd 1 4 c' → c ≤ c') ∧
    (first_minimal G_abcd → min_cost G_abcd 1 4 c).
Proof.
  apply (dijkstra_cost_minimal G_abcd 1 4 20).
  - vm_compute. reflexivity.
  - vm_compute. reflexivity.
  - compute_done.
  - compute_done.
  - exists 2. apply G_abcd_route0.
  - vm_compute. lia.
Defined.

(** X14.  Integer lengths, which Python adds exactly.  On every graph of
    non-negative integer lengths, a non-empty path returned by
    [dijkstra] goes from the origin to the destination, every two
    consecutive nodes of it are joined by an edge of the graph, and the
    lengths the code reads along it sum to the returned cost; this is the
    sum of the least parallel lengths whenever every key-0 edge is a
    shortest one of its parallel edges. *)
Theorem dijkstra_path_valid G origem destino fuel caminho custo G' :
  nonneg G → origem ∈ G.*1 →
  dijkstra fuel origem destino G = (Ok (caminho, custo), G') →
  caminho ≠ [] →
  ∃ c, custo = Fin c ∧
       head caminho = Some origem ∧ last caminho = Some destino ∧
       is_walk G caminho ∧
       sum_along (weight G) caminho = Some c ∧
       (first_minimal G → sum_along (min_parallel G) caminho = Some c).
Proof.
  intros Hnn Ho E Hne.
  destruct (dijkstra_result _ _ _ _ _ _ _ Hnn Ho E)
    as [(-> & _)|(c & -> & Hh & Hl & Hw & Hs & _)]; [done|].
  exists c. repeat split; try done.
  intros Hfm. by apply sum_along_min_parallel.
Qed.

Lemma dijkstra_path_valid_witness :
  ∃ c, Fin 2 = Fin c ∧
       head [1; 2; 4] = Some 1 ∧ last [1; 2; 4] = Some 4 ∧
       is_walk G_abcd [1; 2; 4] ∧
       sum_along (weight G_abcd) [1; 2; 4] = Some c ∧
       (first_minimal G_abcd → sum_along (min_parallel G_abcd) [1; 2; 4] = Some c).
Proof.
  apply (dijkstra_path_valid G_abcd 1 4 20 [1; 2; 4] (Fin 2) G_abcd).
  - vm_compute. reflexivity.
  - compute_done.
  - apply dijkstra_G_abcd.
  - done.
Defined.

(** X3.  On every graph of non-negative lengths, a non-empty path
    returned by [dijkstra] starts at the origin, ends at the destination,
    joins every two consecutive nodes by an edge of the graph whose
    length the code reads, and comes with a finite cost that is not
    negative. *)
Theorem dijkstra_path_is_walk G origem destino fuel caminho custo G' :
  nonneg G → origem ∈ G.*1 →
  dijkstra fuel origem destino G = (Ok (caminho, custo), G') →
  caminho ≠ [] →
  head caminho = Some origem ∧ last caminho = Some destino ∧
  is_walk G caminho ∧
  Forall (λ ab, is_Some (weight G ab.1 ab.2)) (zip caminho (tail caminho)) ∧
  ∃ c, custo = Fin c ∧ 0 ≤ c.
Proof.
  intros Hnn Ho E Hne.
  destruct (dijkstra_result _ _ _ _ _ _ _ Hnn Ho E)
    as [(-> & _)|(c & -> & Hh & Hl & Hw & Hs & Hr & _)]; [done|].
  repeat split; try done.
  - by apply (sum_along_readable G caminho c).
  - exists c. split; [done|]. by apply (route0_nonneg G origem destino).
Qed.

Lemma dijkstra_path_is_walk_witness :
  head [1; 2; 4] = Some 1 ∧ last [1; 2; 4] = Some 4 ∧
  is_walk G_abcd [1; 2; 4] ∧
  Forall (λ ab, is_Some (weight G_abcd ab.1 ab.2)) (zip [1; 2; 4] (tail [1; 2; 4])) ∧
  ∃ c, Fin 2 = Fin c ∧ 0 ≤ c.
Proof.
  apply (dijkstra_path_is_walk G_abcd 1 4 20 [1; 2; 4] (Fin 2) G_abcd).
  - vm_compute. reflexivity.
  - compute_done.
  - apply dijkstra_G_abcd.
  - done.
Defined.

(** * Further properties of the code *)

(** ** The search *)

(** X1.  The search loop ends on every graph, whatever the sign of its
    lengths: with a known origin it raises nothing and is left within
    2 + the sum of the degrees rounds, having expanded fewer nodes than
    it made rounds. *)
Theorem search_loop_ends G origem destino fuel :
  wf_graph G → origem ∈ G.*1 → (total_degree G + 2 ≤ fuel)%nat →
  ∃ st, while_pq fuel destino (start G origem) G = (Ok st, G) ∧
        (size (visitados st) < fuel)%nat.
Proof.
  intros Hwf Ho Hfuel.
  destruct (while_pq_start G origem Hwf destino fuel Ho Hfuel) as (st & Ew & _).
  exists st. split; [done|].
  pose proof (while_pq_visited_fuel _ _ _ _ _ _ Ew) as Hvf.
  change (visitados (start G origem)) with (∅ : gset Z) in Hvf.
  rewrite size_empty in Hvf. lia.
Qed.

Lemma search_loop_ends_witness :
  ∃ st, while_pq 20 3 (start G_neg 1) G_neg = (Ok st, G_neg) ∧
        (size (visitados st) < 20)%nat.
Proof.
  apply search_loop_ends; [vm_compute; reflexivity | compute_done | vm_compute; lia].
Defined.

(** X2.  On a graph of non-negative lengths, for an origin and a
    destination in it, the call always returns: no exception, no endless
    loop.  The path returned is empty exactly when the cost is infinite. *)
Theorem dijkstra_always_returns G origem destino fuel :
  wf_graph G → nonneg G → origem ∈ G.*1 → destino ∈ G.*1 →
  (total_degree G + 2 ≤ fuel)%nat →
  ∃ caminho custo,
    dijkstra fuel origem destino G = (Ok (caminho, custo), G) ∧
    (caminho = [] ↔ custo = Inf).
Proof.
  intros Hwf Hnn Ho Hd Hfuel.
  destruct (dijkstra_total_aux G origem destino fuel Hwf Hnn Ho Hd Hfuel)
    as (caminho & custo & E).
  exists caminho, custo. split; [done|].
  destruct (dijkstra_result _ _ _ _ _ _ _ Hnn Ho E)
    as [(-> & -> & _)|(c & -> & Hh & _)]; [done|].
  split; [intros ->; done|done].
Qed.

Lemma dijkstra_always_returns_witness :
  ∃ caminho custo,
    dijkstra 20 1 5 G_abcd = (Ok (caminho, custo), G_abcd) ∧
    (caminho = [] ↔ custo = Inf).
Proof.
  apply dijkstra_always_returns;
    [vm_compute; reflexivity | vm_compute; reflexivity | compute_done
    | compute_done | vm_compute; lia].
Defined.

(** X5.  Integer lengths, which Python adds exactly.  On a graph without
    parallel edges (a simple [Graph], or a [MultiGraph] whose edges all
    have the one key 0) and of non-negative integer lengths, the cost
    returned for a reachable destination is the least cost of a route of
    the graph. *)
Theorem dijkstra_true_minimum_without_parallel_edges G origem destino fuel :
  wf_graph G → nonneg G → no_parallel G →
  origem ∈ G.*1 → destino ∈ G.*1 →
  (∃ c, route G origem destino c) →
  (total_degree G + 2 ≤ fuel)%nat →
  ∃ caminho c,
    dijkstra fuel origem destino G = (Ok (caminho, Fin c), G) ∧
    min_cost G origem destino c.
Proof.
  intros Hwf Hnn Hnp Ho Hd [c1 Hr1] Hfuel.
  pose proof (no_parallel_first_minimal G Hnp) as Hfm.
  destruct (first_minimal_route _ _ _ _ Hfm Hnn Hr1) as (c0 & Hr0 & _).
  destruct (dijkstra_returns G origem destino fuel c0 Hwf Hnn Ho Hd Hr0 Hfuel)
    as (caminho & custo & E).
  destruct (dijkstra_result _ _ _ _ _ _ _ Hnn Ho E)
    as [(_ & _ & Hno)|(c & -> & _ & _ & _ & _ & Hc & Hmin)].
  { by destruct (Hno c0). }
  exists caminho, c. split; [done|]. split; [by apply route0_route|].
  intros c' Hc'.
  destruct (first_minimal_route _ _ _ _ Hfm Hnn Hc') as (c2 & Hc2 & Hle).
  specialize (Hmin c2 Hc2). lia.
Qed.

Lemma G_abcd_route : route G_abcd 1 4 2.
Proof. apply route0_route, G_abcd_route0. Qed.

Lemma dijkstra_true_minimum_without_parallel_edges_witness :
  ∃ caminho c,
    dijkstra 20 1 4 G_abcd = (Ok (caminho, Fin c), G_abcd) ∧
    min_cost G_abcd 1 4 c.
Proof.
  apply dijkstra_true_minimum_without_parallel_edges.
  - vm_compute. reflexivity.
  - vm_compute. reflexivity.
  - vm_compute. reflexivity.
  - compute_done.
  - compute_done.
  - exists 2. apply G_abcd_route.
  - vm_compute. lia.
Defined.

(** X6.  Edges without a ['length'] do not count: when the destination
    can only be reached through such edges, it is reported like an
    unreachable one, with the empty path and the cost +infinity,
    whatever the sign of the lengths read elsewhere. *)
Theorem dijkstra_no_readable_route G origem destino fuel :
  wf_graph G → origem ∈ G.*1 → destino ∈ G.*1 → destino ≠ origem →
  (∀ c, ¬ route0 G origem destino c) →
  (total_degree G + 2 ≤ fuel)%nat →
  dijkstra fuel origem destino G = (Ok ([], Inf), G).
Proof.
  intros Hwf Ho Hd Hne Hnr Hfuel. rewrite dijkstra_eq.
  destruct (while_pq_start G origem Hwf destino fuel Ho Hfuel) as (st & -> & Hs).
  destruct (proj2 (safe_pred _ _ _ Hs destino) Hd) as [p Ep]. rewrite Ep.
  destruct p as [u|].
  - destruct (safe_parent _ _ _ Hs _ _ Ep) as [_ [c Hc]]. by destruct (Hnr c).
  - rewrite !bool_decide_eq_true_2 by done. reflexivity.
Qed.

Lemma G_simple_routes x c : route0 G_simple 1 x c → x = 1 ∨ x = 2.
Proof.
  induction 1 as [|v x c w _ IH Hw]; [by left|].
  destruct IH as [-> | ->]; unfold weight, edge, G_simple in Hw; simpl in Hw;
    repeat (case_bool_decide; simpl in Hw); subst; try done; auto.
Qed.

Lemma dijkstra_no_readable_route_witness :
  3 ∈ neighbors G_simple 1 ∧
  dijkstra 20 1 3 G_simple = (Ok ([], Inf), G_simple).
Proof.
  split; [compute_done|].
  apply dijkstra_no_readable_route.
  - vm_compute. reflexivity.
  - compute_done.
  - compute_done.
  - lia.
  - intros c Hc. apply G_simple_routes in Hc. lia.
  - vm_compute. lia.
Defined.



(** X8.  On a graph of non-negative lengths the path returned never
    passes a node twice; its nodes are nodes of the graph, so it is no
    longer than the graph has nodes. *)
Theorem dijkstra_path_simple G origem destino fuel caminho custo G' :
  wf_graph G → nonneg G → origem ∈ G.*1 →
  dijkstra fuel origem destino G = (Ok (caminho, custo), G') →
  NoDup caminho ∧ Forall (λ x, x ∈ G.*1) caminho ∧
  (length caminho ≤ length G)%nat.
Proof.
  intros Hwf Hnn Ho E.
  assert (NoDup caminho) as Hnd.
  { destruct (dijkstra_ok_trail _ _ _ _ _ _ _ Hnn Ho E)
      as [(-> & _)|(st & l & c & _ & _ & Hnd & -> & _)]; [apply NoDup_nil_2|].
    by rewrite reverse_Permutation. }
  pose proof (dijkstra_ok_nodes _ _ _ _ _ _ _ Hwf E) as Hall.
  split; [done|]. split; [done|].
  rewrite <- (length_fmap fst G). apply submseteq_length.
  apply NoDup_submseteq; [done|]. by apply Forall_forall.
Qed.

Lemma dijkstra_path_simple_witness :
  NoDup [1; 2; 4] ∧ Forall (λ x, x ∈ G_abcd.*1) [1; 2; 4] ∧
  (length [1; 2; 4] ≤ length G_abcd)%nat.
Proof.
  apply (dijkstra_path_simple G_abcd 1 4 20 [1; 2; 4] (Fin 2) G_abcd).
  - vm_compute. reflexivity.
  - vm_compute. reflexivity.
  - compute_done.
  - apply dijkstra_G_abcd.
Defined.

(** X10.  Leaving the loop at the first sight of the destination keeps the
    search short: on a graph of non-negative lengths the destination is
    never expanded, and no expanded node is labelled more than the
    destination. *)
Theorem search_stops_at_destination G origem destino fuel st G' :
  nonneg G → origem ∈ G.*1 →
  while_pq fuel destino (start G origem) G = (Ok st, G') →
  (destino ∉ visitados st) ∧
  ∀ x cx cd, x ∈ visitados st → distancias st !! x = Some (Fin cx) →
             distancias st !! destino = Some (Fin cd) → cx ≤ cd.
Proof.
  intros Hnn Ho Ew.
  pose proof (while_pq_inv G origem destino (λ u v w, nonneg_weight G u v w Hnn)
                fuel _ _ _ (start_inv G origem destino Ho) Ew)
    as (_ & _ & _ & _ & Hdv & Hearly).
  done.
Qed.

Lemma search_stops_at_destination_witness :
  (2 ∉ visitados G_abcd_search) ∧
  ∀ x cx cd, x ∈ visitados G_abcd_search →
             distancias G_abcd_search !! x = Some (Fin cx) →
             distancias G_abcd_search !! 2 = Some (Fin cd) → cx ≤ cd.
Proof.
  apply (search_stops_at_destination G_abcd 1 2 20 G_abcd_search G_abcd).
  - vm_compute. reflexivity.
  - compute_done.
  - vm_compute. reflexivity.
Defined.

(** ** A negative length next to the origin *)

Lemma while_pq_fuel_less destino fuel : ∀ G st st' G' fuel',
  (fuel ≤ fuel')%nat → while_pq fuel' destino st G = (Ok st', G') →
  while_pq fuel destino st G = (Ok st', G') ∨
  (while_pq fuel destino st G).1 = OutOfFuel.
Proof.
  induction fuel as [|fuel IH]; intros G st st' G' fuel' Hle E; [by right|].
  destruct fuel' as [|fuel']; [lia|]. simpl in *.
  destruct (heappop (pq st)) as [[[d u] q]|]; [|by left].
  repeat case_bool_decide; try (by left).
  - eapply IH; [|exact E]. lia.
  - unfold bind in *. destruct (G_neighbors u G) as [[nbrs|e|] G1]; try done.
    destruct (for_vizinho u d nbrs _ G1) as [[st3|e|] G2]; try done.
    eapply IH; [|exact E]. lia.
Qed.

Lemma while_pq_break destino fuel st G k q :
  heappop (pq st) = Some ((k, destino), q) →
  while_pq (S fuel) destino st G =
  (Ok (Locals (distancias st) (predecessores st) (visitados st) q), G).
Proof. intros E. simpl. rewrite E. by rewrite bool_decide_eq_true_2. Qed.

Lemma while_pq_skip destino fuel st G k u q :
  heappop (pq st) = Some ((k, u), q) → u ≠ destino → u ∈ visitados st →
  while_pq (S fuel) destino st G =
  while_pq fuel destino
    (Locals (distancias st) (predecessores st) (visitados st) q) G.
Proof.
  intros E Hu Hvis. simpl. rewrite E.
  rewrite bool_decide_eq_false_2 by done. by rewrite bool_decide_eq_true_2.
Qed.

Lemma while_pq_expand destino fuel st G k u q a st3 :
  heappop (pq st) = Some ((k, u), q) → u ≠ destino → u ∉ visitados st →
  assoc u G = Some a →
  for_vizinho u k (neighbors G u)
    (Locals (distancias st) (predecessores st) ({[u]} ∪ visitados st) q) G =
    (Ok st3, G) →
  while_pq (S fuel) destino st G = while_pq fuel destino st3 G.
Proof.
  intros E Hu Hvis Ea Efor. simpl. rewrite E.
  rewrite bool_decide_eq_false_2 by done.
  rewrite bool_decide_eq_false_2 by done.
  unfold bind. rewrite G_neighbors_eq, Ea, Efor. reflexivity.
Qed.

Section Chain.
Variables o v d w1 w2 : Z.
Hypothesis Hov : o ≠ v.
Hypothesis Hvd : v ≠ d.
Hypothesis Hod : o ≠ d.
Hypothesis Hneg : w1 < 0.

Let G := G_chain o v d w1 w2.

Ltac decide_keys :=
  repeat (simpl;
          first [ rewrite bool_decide_eq_true_2 by congruence
                | rewrite bool_decide_eq_false_2 by congruence ]).

Lemma chain_weights :
  weight G o v = Some w1 ∧ weight G v o = Some w1 ∧ weight G v d = Some w2.
Proof. unfold weight, edge, G, G_chain. decide_keys. done. Qed.

Lemma chain_neighbors :
  assoc o G = Some [(v, one w1)] ∧
  assoc v G = Some [(o, one w1); (d, one w2)] ∧
  neighbors G o = [v] ∧ neighbors G v = [o; d].
Proof. unfold neighbors, G, G_chain. decide_keys. done. Qed.

(** The predecessors the search ends with: 2 after 1, 1 after 2. *)
Lemma chain_search fuel :
  (4 ≤ fuel)%nat →
  ∃ st, while_pq fuel d (start G o) G = (Ok st, G) ∧
        predecessores st !! d = Some (Some v) ∧
        predecessores st !! v = Some (Some o) ∧
        predecessores st !! o = Some (Some v).
Proof.
  intros Hfuel.
  destruct chain_weights as (Wov & Wvo & Wvd).
  destruct chain_neighbors as (Ao & Av & No & Nv).
  assert (G.*1 = [o; v; d]) as Hnodes by reflexivity.
  set (dist0 := <[o := Fin 0]> (dict_from (G.*1) Inf)).
  set (pred0 := dict_from (G.*1) (None : option Z)).
  set (dist1 := <[v := Fin (0 + w1)]> dist0).
  set (pred1 := <[v := Some o]> pred0).
  set (dist2 := <[o := Fin (0 + w1 + w1)]> dist1).
  set (pred2 := <[o := Some v]> pred1).
  set (dist3 := <[d := Fin (0 + w1 + w2)]> dist2).
  set (pred3 := <[d := Some v]> pred2).
  set (vis1 := ({[o]} ∪ ∅ : gset Z)).
  set (vis2 := ({[v]} ∪ vis1 : gset Z)).
  assert (for_vizinho o 0 [v] (Locals dist0 pred0 vis1 []) G =
          (Ok (Locals dist1 pred1 vis1 [(0 + w1, v)]), G)) as E1.
  { rewrite for_vizinho_cons, relax_eq, Wov. simpl distancias.
    unfold dist0 at 1. rewrite lookup_insert_ne by done.
    rewrite dict_from_lookup, Hnodes.
    rewrite bool_decide_eq_true_2 by set_solver. reflexivity. }
  assert (for_vizinho v (0 + w1) [o; d] (Locals dist1 pred1 vis2 []) G =
          (Ok (Locals dist3 pred3 vis2 [(0 + w1 + w2, d); (0 + w1 + w1, o)]), G))
    as E2.
  { rewrite for_vizinho_cons, relax_eq, Wvo. simpl distancias.
    unfold dist1 at 1. rewrite lookup_insert_ne by done.
    unfold dist0 at 1. rewrite lookup_insert_eq.
    assert (lt_num (0 + w1 + w1) (Fin 0) = true) as ->.
    { simpl. apply bool_decide_eq_true. lia. }
    rewrite for_vizinho_cons, relax_eq, Wvd.
    unfold relaxed at 1. simpl distancias. fold dist2.
    unfold dist2 at 1. rewrite lookup_insert_ne by done.
    unfold dist1 at 1. rewrite lookup_insert_ne by done.
    unfold dist0 at 1. rewrite lookup_insert_ne by done.
    rewrite dict_from_lookup, Hnodes.
    rewrite bool_decide_eq_true_2 by set_solver. reflexivity. }
  assert (pred3 !! d = Some (Some v) ∧ pred3 !! v = Some (Some o) ∧
          pred3 !! o = Some (Some v)) as Hpred.
  { unfold pred3, pred2, pred1. split; [|split].
    - by rewrite lookup_insert_eq.
    - rewrite lookup_insert_ne by done. rewrite lookup_insert_ne by done.
      by rewrite lookup_insert_eq.
    - rewrite lookup_insert_ne by done. by rewrite lookup_insert_eq. }
  rewrite <- No in E1. rewrite <- Nv in E2.
  assert (while_pq fuel d (start G o) G =
          while_pq (fuel - 2) d
            (Locals dist3 pred3 vis2 [(0 + w1 + w2, d); (0 + w1 + w1, o)]) G) as ->.
  { replace fuel with (S (S (fuel - 2))) at 1 by lia.
    rewrite (while_pq_expand d _ (start G o) G 0 o [] _ _ eq_refl Hod
               (not_elem_of_empty o) Ao E1).
    eapply (while_pq_expand d _ (Locals dist1 pred1 vis1 [(0 + w1, v)]) G
              (0 + w1) v []);
      [reflexivity | exact Hvd | simpl; set_solver | exact Av | exact E2]. }
  destruct (lex_le (0 + w1 + w2, d) (0 + w1 + w1, o)) eqn:Hlex.
  - exists (Locals dist3 pred3 vis2 [(0 + w1 + w1, o)]). split; [|exact Hpred].
    replace (fuel - 2)%nat with (S (fuel - 3)) by lia.
    apply (while_pq_break d _ (Locals dist3 pred3 vis2
             [(0 + w1 + w2, d); (0 + w1 + w1, o)]) G (0 + w1 + w2)).
    simpl. by rewrite Hlex.
  - exists (Locals dist3 pred3 vis2 []). split; [|exact Hpred].
    replace (fuel - 2)%nat with (S (S (fuel - 4))) by lia.
    rewrite (while_pq_skip d _ (Locals dist3 pred3 vis2
               [(0 + w1 + w2, d); (0 + w1 + w1, o)]) G
               (0 + w1 + w1) o [(0 + w1 + w2, d)]).
    + by apply (while_pq_break d _ (Locals dist3 pred3 vis2 [(0 + w1 + w2, d)])
                  G (0 + w1 + w2)).
    + simpl. by rewrite Hlex.
    + done.
    + simpl. set_solver.
Qed.
End Chain.

(** X9.  A negative length on the edge out of the origin, towards a
    node that is not the destination, makes the call never return: the
    origin and its neighbour become each other's predecessor, and the
    walk back from the destination, which has no guard against cycles,
    goes round for ever, whatever the fuel. *)
Theorem negative_first_edge_never_returns o v d w1 w2 fuel :
  o ≠ v → v ≠ d → o ≠ d → w1 < 0 →
  (dijkstra fuel o d (G_chain o v d w1 w2)).1 = OutOfFuel.
Proof.
  intros Hov Hvd Hod Hneg. rewrite dijkstra_eq.
  destruct (chain_search o v d w1 w2 Hov Hvd Hod Hneg (Nat.max fuel 4)
              (Nat.le_max_r _ _)) as (st & Ew & Hd & Hv & Ho).
  destruct (while_pq_fuel_less d fuel _ _ _ _ _ (Nat.le_max_l _ _) Ew)
    as [->|Hout].
  2:{ by destruct (while_pq fuel d _ _) as [[?|?|] ?]. }
  rewrite Hd. simpl.
  destruct fuel as [|fuel]; [done|]. simpl. unfold bind, dict_get. rewrite Hd.
  simpl.
  pose proof (walk_back_cycle (predecessores st) v o (G_chain o v d w1 w2)
                fuel [d] Hv Ho) as Hc.
  by destruct (walk_back fuel _ _ _ _) as [[?|?|] ?].
Qed.

Lemma negative_first_edge_never_returns_witness :
  (dijkstra 1000 1 3 (G_chain 1 2 3 (-1) 4)).1 = OutOfFuel.
Proof. apply negative_first_edge_never_returns; lia. Defined.

(** ** The page *)

Lemma rows_ok G pairs :
  Forall (λ ab, ab.1 ∈ G.*1 ∧ ab.2 ∈ G.*1) pairs → rows pairs G = (Ok pairs, G).
Proof.
  induction 1 as [|[a b] pairs [Ha Hb] _ IH]; [done|].
  simpl in *. unfold bind, G_node.
  rewrite !(bool_decide_eq_true_2 (a ∈ G.*1)) by done.
  rewrite !(bool_decide_eq_true_2 (b ∈ G.*1)) by done.
  by rewrite IH.
Qed.

Lemma path_df_ok G caminho :
  Forall (λ x, x ∈ G.*1) caminho →
  path_df caminho G = (Ok (zip caminho (tail caminho)), G).
Proof.
  intros Hall. unfold path_df.
  destruct (bool_decide (caminho ≠ []) && bool_decide (1 < length caminho)%nat)
    eqn:Hc.
  - apply rows_ok. apply Forall_forall. intros [a b] Hab.
    rewrite Forall_forall in Hall. simpl. split.
    + apply Hall. eapply elem_of_zip_l; eauto.
    + apply Hall. apply elem_of_zip_r in Hab.
      destruct caminho; [inversion Hab | by right].
  - by destruct caminho as [|a [|b l]].
Qed.

Lemma path_df_no_raise G caminho e :
  Forall (λ x, x ∈ G.*1) caminho → (path_df caminho G).1 ≠ Raise e.
Proof. intros Hall. by rewrite path_df_ok. Qed.



Lemma while_pq_at_destination G n fuel :
  while_pq (S fuel) n (start G n) G =
  (Ok (Locals (distancias (start G n)) (predecessores (start G n)) ∅ []), G).
Proof. simpl. by rewrite bool_decide_eq_true_2. Qed.

Lemma dijkstra_at_origin G n fuel :
  n ∈ G.*1 → dijkstra (S fuel) n n G = (Ok ([n], Fin 0), G).
Proof.
  intros Hn. rewrite dijkstra_eq, while_pq_at_destination.
  cbv beta iota. simpl predecessores. simpl distancias.
  rewrite dict_from_lookup, bool_decide_eq_true_2 by done.
  rewrite (bool_decide_eq_false_2 (n ≠ n)) by auto. rewrite andb_false_r.
  simpl. unfold bind, dict_get.
  rewrite dict_from_lookup, bool_decide_eq_true_2 by done. simpl.
  destruct fuel; simpl; by rewrite lookup_insert_eq.
Qed.

Section PageFacts.
Context {place : Type} `{EqDecision place}.
Variable nearest_nodes : place → M Z.

Lemma calcular_resolved G fuel origem destino no nd :
  origem ≠ destino →
  nearest_nodes origem G = (Ok no, G) → nearest_nodes destino G = (Ok nd, G) →
  calcular nearest_nodes fuel origem destino G =
  match dijkstra fuel no nd G with
  | (Ok (caminho, custo), G') =>
      (Ok (caminho, custo,
           Some (if bool_decide (caminho ≠ []) then Success origem destino custo
                 else NoPath)), G')
  | (Raise e, G') => (Ok ([], Fin 0, Some (Failed e)), G')
  | (OutOfFuel, G') => (OutOfFuel, G')
  end.
Proof.
  intros Hne Eo Ed. unfold calcular, try_except, bind.
  rewrite bool_decide_eq_true_2 by done. rewrite Eo, Ed.
  destruct (dijkstra fuel no nd G) as [[[caminho custo]|e|] G']; try done.
  simpl. by destruct (bool_decide (caminho ≠ [])).
Qed.

(** The path kept after step 4 holds nodes of the graph only. *)
Lemma calcular_nodes G fuel origem destino caminho custo msg G' :
  wf_graph G → (∀ p, reads (nearest_nodes p)) →
  calcular nearest_nodes fuel origem destino G = (Ok (caminho, custo, msg), G') →
  G' = G ∧ Forall (λ x, x ∈ G.*1) caminho.
Proof.
  intros Hwf Hreads. unfold calcular.
  case_bool_decide; [|by intros [= <- _ _ <-]].
  unfold try_except, bind.
  destruct (nearest_nodes origem G) as [[no|e|] G1] eqn:Eo;
    pose proof (reads_run _ _ _ _ (Hreads origem) Eo) as ->;
    [|by intros [= <- _ _ <-]|done].
  destruct (nearest_nodes destino G) as [[nd|e|] G1] eqn:Ed;
    pose proof (reads_run _ _ _ _ (Hreads destino) Ed) as ->;
    [|by intros [= <- _ _ <-]|done].
  destruct (dijkstra fuel no nd G) as [[[cam cus]|e|] G1] eqn:E;
    pose proof (reads_run _ _ _ _ (reads_dijkstra fuel no nd) E) as ->;
    [|by intros [= <- _ _ <-]|done].
  pose proof (dijkstra_ok_nodes _ _ _ _ _ _ _ Hwf E) as Hall.
  simpl. destruct (bool_decide (cam ≠ [])); by intros [= <- _ _ <-].
Qed.
End PageFacts.

(** X11.  The page never ends in an exception: whatever the resolution
    of the places gives, an exception inside the [try] is caught and
    shown, and the node lookups made afterwards for the rows of the path,
    outside the [try], find every node of the path in the graph. *)
Theorem pagina_never_raises {place : Type} `{EqDecision place}
    (nearest_nodes : place → M Z) G fuel origem destino e :
  wf_graph G → (∀ p, reads (nearest_nodes p)) →
  (pagina nearest_nodes fuel origem destino G).1 ≠ Raise e.
Proof.
  intros Hwf Hreads. unfold pagina, bind.
  destruct (calcular nearest_nodes fuel origem destino G)
    as [[[[caminho custo] msg]|e'|] G1] eqn:Ec.
  - destruct (calcular_nodes _ _ _ _ _ _ _ _ _ Hwf Hreads Ec) as [-> Hall].
    simpl. rewrite (path_df_ok _ _ Hall). done.
  - exfalso. revert Ec. unfold calcular. case_bool_decide; [|done].
    unfold try_except.
    by destruct (bind _ _ G) as [[?|?|] ?].
  - done.
Qed.

Lemma pagina_never_raises_witness :
  (pagina (λ p : Z, ret p) 20 1 9 G_abcd).1 ≠ Raise KeyError.
Proof.
  apply pagina_never_raises; [vm_compute; reflexivity|].
  intros p. apply reads_ret.
Defined.



(** X13.  Two different places resolved to the same node: the page
    announces a route of 0 metres and draws no path layer. *)
Theorem pagina_same_node {place : Type} `{EqDecision place}
    (nearest_nodes : place → M Z) G fuel origem destino n :
  origem ≠ destino →
  nearest_nodes origem G = (Ok n, G) → nearest_nodes destino G = (Ok n, G) →
  n ∈ G.*1 → (1 ≤ fuel)%nat →
  pagina nearest_nodes fuel origem destino G =
  (Ok (Some (Success origem destino (Fin 0)), [LayerRuas; LayerPontos]), G).
Proof.
  intros Hne Eo Ed Hn Hfuel. destruct fuel as [|fuel]; [lia|].
  unfold pagina, bind.
  rewrite (calcular_resolved _ _ _ _ _ _ _ Hne Eo Ed), (dijkstra_at_origin _ _ _ Hn).
  reflexivity.
Qed.

Lemma pagina_same_node_witness :
  pagina (λ p : Z, ret (p `mod` 2 + 1)) 1 1 3 G_abcd =
  (Ok (Some (Success 1 3 (Fin 0)), [LayerRuas; LayerPontos]), G_abcd).
Proof.
  apply (pagina_same_node _ G_abcd 1 1 3 2); [lia | reflexivity | reflexivity
    | compute_done | lia].
Defined.
